(** * The product list page: a shallow embedding of its script

    The script of the Vue component keeps five reactive references
    ([products], [loading], [search], [page], [sort]), loads the whole
    remote catalogue in [onMounted], and derives three computed views:
    [filteredProducts], [sortedFilteredProducts] and [paginatedProducts].
    A watcher on [[filteredProducts, sort]] puts [page] back to 1.

    Conventions of the embedding.
    - A JavaScript [number] is an integer of [Z], printed in decimal by
      [String]; NaN and the infinities are left out, and for the numbers
      that remain the sign of [a - b] is the sign of the comparison.
    - A JavaScript string is a [string]; the two host functions whose
      result depends on Unicode tables or on the locale ([toLowerCase],
      [localeCompare]) are operations of the class [Host].
    - Arrays and the [sort] object are heap cells, denoted by their
      location, so that identity ([Object.is]) and in-place mutation are
      the ones of the source.
    - [$fetch] is a function from requests to results: within one run of
      [onMounted] no request is sent twice, so nothing is lost. *)

From Stdlib Require Import ZArith String Ascii Lia.
From stdpp Require Import base tactics option list strings pretty sorting.
From Equations Require Import Equations.

Local Open Scope string_scope.
Local Open Scope list_scope.
Local Open Scope Z_scope.

(** ** Values and records *)

(** The values a property of a [Product] can evaluate to. *)
Inductive JsVal : Type :=
  | VUndefined
  | VNum (n : Z)
  | VStr (s : string).

(** [interface Product]. *)
Record Product : Type := mkProduct {
  id : Z;
  title : string;
  description : string;
  price : Z;
  rating : Z;
  brand : string;
  category : string;
  thumbnail : string
}.

#[global] Instance JsVal_eq_dec : EqDecision JsVal.
Proof. solve_decision. Defined.

#[global] Instance Product_eq_dec : EqDecision Product.
Proof. solve_decision. Defined.

(** [Object.values(product)], in declaration order. *)
Definition Object_values (p : Product) : list JsVal :=
  [ VNum (id p); VStr (title p); VStr (description p); VNum (price p);
    VNum (rating p); VStr (brand p); VStr (category p); VStr (thumbnail p) ].

(** [product[key]] for a key chosen at run time. *)
Definition get (p : Product) (key : string) : JsVal :=
  if String.eqb key "id" then VNum (id p)
  else if String.eqb key "title" then VStr (title p)
  else if String.eqb key "description" then VStr (description p)
  else if String.eqb key "price" then VNum (price p)
  else if String.eqb key "rating" then VNum (rating p)
  else if String.eqb key "brand" then VStr (brand p)
  else if String.eqb key "category" then VStr (category p)
  else if String.eqb key "thumbnail" then VStr (thumbnail p)
  else VUndefined.

(** [String(val)]. *)
Definition String_ (v : JsVal) : string :=
  match v with
  | VUndefined => "undefined"
  | VNum n => pretty n
  | VStr s => s
  end.

(** Truthiness of a string ([!s] is [negb (truthy s)]): only the empty
    string is falsy. *)
Definition truthy (s : string) : bool :=
  match s with
  | EmptyString => false
  | String _ _ => true
  end.

(** [total || 100] on an optional number: [undefined] and [0] are falsy. *)
Definition or_default (o : option Z) (d : Z) : Z :=
  match o with
  | Some n => if (n =? 0)%Z then d else n
  | None => d
  end.

(** ** Host string operations *)

(** [s.includes(t)]: [t] occurs in [s] as a contiguous substring. *)
Fixpoint includes (s t : string) : bool :=
  String.prefix t s ||
  match s with
  | EmptyString => false
  | String _ s' => includes s' t
  end.

(** What the host provides and the script cannot define: lower-casing and
    the locale's collation.  The two laws say that [localeCompare] is a
    consistent comparator, as [Array.prototype.sort] asks of its argument:
    the sign flips when the arguments are swapped, and "not after" is
    transitive. *)
Class Host : Type := {
  toLowerCase : string → string;
  localeCompare : string → string → Z;
  localeCompare_swap s t :
    Z.sgn (localeCompare t s) = - Z.sgn (localeCompare s t);
  localeCompare_trans s t u :
    localeCompare s t <= 0 → localeCompare t u <= 0 → localeCompare s u <= 0
}.

(** ** Array methods on values *)

(** [xs.some(f)]. *)
Definition Array_some {A} (f : A → bool) (xs : list A) : bool := existsb f xs.

(** [xs.filter(f)]. *)
Definition Array_filter {A} (f : A → bool) (xs : list A) : list A :=
  List.filter f xs.

(** [xs.slice(start, end)] with the relative-index rules of the language:
    a negative index counts from the end, and both ends are clamped. *)
Definition rel_index (len i : Z) : Z :=
  if (i <? 0)%Z then Z.max (len + i) 0 else Z.min i len.

Definition Array_slice {A} (xs : list A) (start stop : Z) : list A :=
  let len := Z.of_nat (length xs) in
  let k := rel_index len start in
  let final := rel_index len stop in
  take (Z.to_nat (final - k)) (drop (Z.to_nat k) xs).

(** [xs.sort(cmp)] as a value.  The language requires the sort to be
    stable and, for a consistent comparator, to return the sorted
    permutation; it is modelled by the stable insertion sort: an element
    moves right only past elements it is strictly greater than. *)
Fixpoint sort_insert {A} (cmp : A → A → Z) (x : A) (xs : list A) : list A :=
  match xs with
  | [] => [x]
  | y :: ys =>
      if (0 <? cmp x y)%Z then y :: sort_insert cmp x ys else x :: y :: ys
  end.

Definition Array_sort {A} (cmp : A → A → Z) (xs : list A) : list A :=
  foldr (sort_insert cmp) [] xs.

(** ** The three derived views, as functions of what they read *)

Definition pageSize : Z := 10.

Section Views.
Context `{Host}.

(** The callback of [products.value.filter] in [filteredProducts]. *)
Definition matches (search : string) (product : Product) : bool :=
  Array_some
    (λ val, includes (toLowerCase (String_ val)) (toLowerCase search))
    (Object_values product).

(** The body of [filteredProducts], given [search.value] and the
    contents of [products.value]. *)
Definition filterProducts (search : string) (products : list Product)
    : list Product :=
  if negb (truthy search) then products
  else Array_filter (matches search) products.

(** The comparator handed to [items.sort], first on the two values
    [aVal] and [bVal] it reads, then on the records. *)
Definition compareVal (direction : string) (aVal bVal : JsVal) : Z :=
  match aVal, bVal with
  | VStr x, VStr y =>
      if String.eqb direction "asc" then localeCompare x y
      else localeCompare y x
  | VNum x, VNum y =>
      if String.eqb direction "asc" then x - y else y - x
  | _, _ => 0
  end.

Definition compareFn (column direction : string) (a b : Product) : Z :=
  compareVal direction (get a column) (get b column).

(** The body of [sortedFilteredProducts], given [sort.value] and the
    contents of [filteredProducts.value]; [slice()] is [slice(0, len)]. *)
Definition sortProducts (column direction : string)
    (filtered : list Product) : list Product :=
  let items := Array_slice filtered 0 (Z.of_nat (length filtered)) in
  if negb (truthy column) || negb (truthy direction) then items
  else Array_sort (compareFn column direction) items.

(** The body of [paginatedProducts], given [page.value] and the contents
    of [sortedFilteredProducts.value]. *)
Definition paginateProducts (page : Z) (sorted : list Product)
    : list Product :=
  let start := (page - 1) * pageSize in
  Array_slice sorted start (start + pageSize).
End Views.

(** ** The heap: arrays and the sort object by reference *)

Abbreviation loc := nat (only parsing).

Inductive Cell : Type :=
  | Arr (items : list Product)
  | Obj (column direction : string).

Abbreviation Heap := (list Cell) (only parsing).

(** A new object gets the next location; nothing is ever freed. *)
Definition alloc (c : Cell) (h : Heap) : loc * Heap := (length h, h ++ [c]).

(** The elements of the array at [l]. *)
Definition arr (h : Heap) (l : loc) : list Product :=
  match h !! l with
  | Some (Arr items) => items
  | _ => []
  end.

(** The [{column, direction}] of the object at [l]. *)
Definition obj (h : Heap) (l : loc) : string * string :=
  match h !! l with
  | Some (Obj column direction) => (column, direction)
  | _ => ("", "")
  end.

(** [a.filter(f)] and [a.slice(..)] build a new array. *)
Definition heap_filter (f : Product → bool) (a : loc) (h : Heap)
    : loc * Heap :=
  alloc (Arr (Array_filter f (arr h a))) h.

Definition heap_slice (a : loc) (start stop : Z) (h : Heap) : loc * Heap :=
  alloc (Arr (Array_slice (arr h a) start stop)) h.

(** [a.sort(cmp)] reorders [a] in place and returns [a] itself. *)
Definition heap_sort (cmp : Product → Product → Z) (a : loc) (h : Heap)
    : loc * Heap :=
  (a, <[a := Arr (Array_sort cmp (arr h a))]> h).

(** [a.push(...xs)] appends to [a] in place. *)
Definition heap_push (a : loc) (xs : list Product) (h : Heap) : Heap :=
  <[a := Arr (arr h a ++ xs)]> h.

(** [Object.is] on two references. *)
Definition hasChanged (new old : loc) : bool := negb (Nat.eqb new old).

(** ** Requests and responses of the catalogue endpoint *)

(** [GET products?limit=<limit>&skip=<skip>]; the probe has no [skip]. *)
Record Request : Type := mkRequest {
  limit : Z;
  skip : option Z
}.

#[global] Instance Request_eq_dec : EqDecision Request.
Proof. solve_decision. Defined.

(** The parsed body [{ total, products }]; either field may be absent. *)
Module Res.
Record t : Type := mk {
  total : option Z;
  products : option (list Product)
}.
End Res.

(** What awaiting [$fetch(url)] gives: a rejection, or a body, which may
    itself be nullish. *)
Inductive FetchResult : Type :=
  | Rejected
  | Resolved (body : option Res.t).

(** The first request, which only asks for the total. *)
Definition probe : Request := mkRequest 1 None.

(** [const limit = 30]. *)
Definition fetchLimit : Z := 30.

(** The request for the page that starts at [skip]. *)
Definition page_request (skip : Z) : Request :=
  mkRequest fetchLimit (Some skip).

(** ** Component state *)

Record State : Type := mkState {
  heap : Heap;
  products : loc;          (* products.value *)
  loading : bool;          (* loading.value *)
  search : string;         (* search.value *)
  page : Z;                (* page.value *)
  sort : loc;              (* sort.value, the object {column, direction} *)
  filtered : loc;          (* the cached value of filteredProducts *)
  requests : list Request  (* the $fetch calls made so far, oldest first *)
}.

Definition with_heap (h : Heap) (st : State) : State :=
  mkState h (products st) (loading st) (search st) (page st) (sort st)
    (filtered st) (requests st).
Definition with_products (l : loc) (st : State) : State :=
  mkState (heap st) l (loading st) (search st) (page st) (sort st)
    (filtered st) (requests st).
Definition with_loading (b : bool) (st : State) : State :=
  mkState (heap st) (products st) b (search st) (page st) (sort st)
    (filtered st) (requests st).
Definition with_search (q : string) (st : State) : State :=
  mkState (heap st) (products st) (loading st) q (page st) (sort st)
    (filtered st) (requests st).
Definition with_page (p : Z) (st : State) : State :=
  mkState (heap st) (products st) (loading st) (search st) p (sort st)
    (filtered st) (requests st).
Definition with_filtered (l : loc) (st : State) : State :=
  mkState (heap st) (products st) (loading st) (search st) (page st)
    (sort st) l (requests st).
Definition with_request (r : Request) (st : State) : State :=
  mkState (heap st) (products st) (loading st) (search st) (page st)
    (sort st) (filtered st) (requests st ++ [r]).

(** The state right after [setup]: an empty [products] array at 0, the
    sort object at 1, and [filteredProducts] evaluated once by the watcher
    (the query is empty, so it is [products.value] itself). *)
Definition initial : State :=
  mkState [Arr []; Obj "title" "asc"] 0%nat false "" 1 1%nat 0%nat [].

(** ** Effects: state passing with exceptions *)

Inductive Error : Type := FetchError | TypeError.

Inductive Completion (A : Type) : Type :=
  | Normal (a : A)
  | Throw (e : Error).
Arguments Normal {A} a.
Arguments Throw {A} e.

Definition Eff (A : Type) : Type := State → Completion A * State.

#[global] Instance Eff_ret : MRet Eff := λ A a st, (Normal a, st).

#[global] Instance Eff_bind : MBind Eff := λ A B k m st,
  match m st with
  | (Normal a, st') => k a st'
  | (Throw e, st') => (Throw e, st')
  end.

Definition throw {A} (e : Error) : Eff A := λ st, (Throw e, st).

(** A state update that cannot fail. *)
Definition modify (f : State → State) : Eff unit := λ st, (Normal (), f st).

(** [try { body } catch (err) { handler }]. *)
Definition try_catch (body : Eff unit) (handler : Error → Eff unit)
    : Eff unit := λ st,
  match body st with
  | (Normal a, st') => (Normal a, st')
  | (Throw e, st') => handler e st'
  end.

(** [try { body } finally { fin }]: [fin] runs either way, and the
    completion of [body] stands unless [fin] throws. *)
Definition try_finally (body fin : Eff unit) : Eff unit := λ st,
  match body st with
  | (c, st') =>
      match fin st' with
      | (Normal _, st'') => (c, st'')
      | (Throw e, st'') => (Throw e, st'')
      end
  end.

(** [await $fetch(url)] against a server [srv]: the call is recorded, and
    a rejection is thrown. *)
Definition fetch (srv : Request → FetchResult) (req : Request)
    : Eff (option Res.t) := λ st,
  match srv req with
  | Rejected => (Throw FetchError, with_request req st)
  | Resolved body => (Normal body, with_request req st)
  end.

(** [initial.total || 100]; reading [.total] of a nullish body throws. *)
Definition total_or_100 (initial : option Res.t) : Eff Z :=
  match initial with
  | Some body => mret (or_default (Res.total body) 100)
  | None => throw TypeError
  end.

(** [const result: Product[] = []]. *)
Definition new_array : Eff loc := λ st,
  let '(l, h) := alloc (Arr []) (heap st) in (Normal l, with_heap h st).

(** [if (res?.products) result.push(...res.products)]. *)
Definition push_products (result : loc) (res : option Res.t) (st : State)
    : State :=
  match res with
  | Some body =>
      match Res.products body with
      | Some ps => with_heap (heap_push result ps (heap st)) st
      | None => st
      end
  | None => st
  end.

(** [for (let skip = 0; skip < total; skip += limit) { ... }], entered at
    [skip]. *)
Equations? fetchPages (srv : Request → FetchResult) (total : Z)
    (result : loc) (skip : Z) (st : State) : Completion unit * State
    by wf (Z.to_nat (total - skip)) lt :=
fetchPages srv total result skip st with decide (skip < total) := {
  | left _ =>
      match fetch srv (page_request skip) st with
      | (Normal res, st1) =>
          fetchPages srv total result (skip + fetchLimit)
            (push_products result res st1)
      | (Throw e, st1) => (Throw e, st1)
      end
  | right _ => (Normal (), st) }.
Proof. unfold fetchLimit. lia. Qed.

Section Component.
Context `{Host}.

(** *** Computed references *)

(** The getter of [filteredProducts]: the array it returns and the heap
    after evaluating it. *)
Definition filteredProducts (st : State) : loc * Heap :=
  if negb (truthy (search st)) then (products st, heap st)
  else heap_filter (matches (search st)) (products st) (heap st).

(** The getter of [sortedFilteredProducts]. *)
Definition sortedFilteredProducts (st : State) : loc * Heap :=
  let '(column, direction) := obj (heap st) (sort st) in
  let '(items, h) :=
    heap_slice (filtered st) 0
      (Z.of_nat (length (arr (heap st) (filtered st)))) (heap st) in
  if negb (truthy column) || negb (truthy direction) then (items, h)
  else heap_sort (compareFn column direction) items h.

(** The getter of [paginatedProducts]. *)
Definition paginatedProducts (st : State) : loc * Heap :=
  let start := (page st - 1) * pageSize in
  let '(sorted, h) := sortedFilteredProducts st in
  heap_slice sorted start (start + pageSize) h.

(** *** Change propagation *)

(** Re-evaluation of [filteredProducts] after one of the two references
    its getter reads ([products], [search]) was assigned a new value. *)
Definition recompute (st : State) : State :=
  let '(f, h) := filteredProducts st in with_filtered f (with_heap h st).

(** [watch([filteredProducts, sort], () => { page.value = 1 })], with no
    options.  Both sources are references, and a reference is watched
    through its [.value]: the array [filteredProducts] evaluates to, and
    the object [sort] holds.  The callback runs when one of the two is
    not the same ([Object.is]) as what the watcher saw before, in [old];
    without [deep: true] the properties of the object are not read. *)
Definition watch_job (old st : State) : State :=
  if hasChanged (filtered st) (filtered old)
     || hasChanged (sort st) (sort old)
  then with_page 1 st else st.

(** What follows a batch of writes that led from [old] to [st]. *)
Definition flush (old st : State) : State :=
  let dirty :=
    hasChanged (products st) (products old)
    || negb (String.eqb (search st) (search old)) in
  watch_job old (if dirty then recompute st else st).

(** *** User input *)

(** [sort.value.direction = sort.value.direction === 'asc' ? 'desc' : 'asc']:
    a write to a property of the object [sort] holds; [sort.value] is
    the same object afterwards. *)
Definition toggleSortDirection (st : State) : State :=
  let '(column, direction) := obj (heap st) (sort st) in
  let direction' := if String.eqb direction "asc" then "desc" else "asc" in
  with_heap (<[sort st := Obj column direction']> (heap st)) st.

(** [v-model="sort.column"]: [sort.value.column = c]. *)
Definition selectColumn (c : string) (st : State) : State :=
  let '(_, direction) := obj (heap st) (sort st) in
  with_heap (<[sort st := Obj c direction]> (heap st)) st.

Inductive Event : Type :=
  | InputSearch (q : string)    (* v-model="search" *)
  | SelectColumn (c : string)   (* v-model="sort.column" *)
  | ClickToggle                 (* @click="toggleSortDirection" *)
  | SelectPage (p : Z).         (* v-model="page" *)

Definition handle (ev : Event) (st : State) : State :=
  match ev with
  | InputSearch q => with_search q st
  | SelectColumn c => selectColumn c st
  | ClickToggle => toggleSortDirection st
  | SelectPage p => with_page p st
  end.

Definition dispatch (ev : Event) (st : State) : State :=
  flush st (handle ev st).

(** *** Loading the catalogue *)

(** [products.value = result], with the propagation it causes. *)
Definition assign_products (result : loc) : Eff unit :=
  modify (λ st, flush st (with_products result st)).

(** [console.error(...)]: no effect on the component. *)
Definition console_error (err : Error) : Eff unit := mret ().

(** The callback of [onMounted]. *)
Definition onMounted (srv : Request → FetchResult) : Eff unit :=
  try_finally
    (try_catch
       (modify (with_loading true);;
        initial ← fetch srv probe;
        total ← total_or_100 initial;
        result ← new_array;
        fetchPages srv total result 0;;
        assign_products result)
       console_error)
    (modify (with_loading false)).
End Component.

(** ** Notions used in the statements *)

(** [t] occurs in [s]: [s] is [pre ++ t ++ post]. *)
Definition occurs_in (t s : string) : Prop :=
  ∃ pre post, s = pre +:+ t +:+ post.

(** A comparator is consistent when swapping its arguments flips the sign
    and "not after" is transitive. *)
Record Consistent {A} (cmp : A → A → Z) : Prop := {
  cmp_swap a b : Z.sgn (cmp b a) = - Z.sgn (cmp a b);
  cmp_trans a b c : cmp a b ≤ 0 → cmp b c ≤ 0 → cmp a c ≤ 0
}.

(** [a] is not after [b]. *)
Definition not_after {A} (cmp : A → A → Z) (a b : A) : Prop :=
  cmp a b ≤ 0.

(** The offsets [skip], [skip + limit], ... below [total], and those that
    start at 0. *)
Definition offsets_from (skip total : Z) : list Z :=
  (λ k, skip + fetchLimit * k)
    <$> seqZ 0 ((total - skip + fetchLimit - 1) / fetchLimit).

Definition offsets (total : Z) : list Z :=
  (λ k, fetchLimit * k) <$> seqZ 0 ((total + fetchLimit - 1) / fetchLimit).

(** The records a response carries; none when the field is missing. *)
Definition records_of (r : FetchResult) : list Product :=
  match r with
  | Resolved (Some body) => default [] (Res.products body)
  | _ => []
  end.

(** The part of the state the loop only reads. *)
Definition view (st : State) : loc * bool * string * Z * loc * loc :=
  (products st, loading st, search st, page st, sort st, filtered st).

(** What the loop may change between [st] and [st']: the log of requests
    and the contents of the array [result]. *)
Definition loop_frame (result : loc) (st st' : State) : Prop :=
  view st' = view st
  ∧ length (heap st') = length (heap st)
  ∧ ∀ l, l ≠ result → heap st' !! l = heap st !! l.

Section Notions.
Context `{Host}.

(** Some field of [r], as a string, contains the query [q] once both
    are in lower case. *)
Definition field_contains (q : string) (r : Product) : Prop :=
  ∃ val, val ∈ Object_values r
         ∧ occurs_in (toLowerCase q) (toLowerCase (String_ val)).

(** No two records of the list, at different positions, have keys that
    compare equal. *)
Definition no_duplicate_keys (column : string) (records : list Product)
    : Prop :=
  ∀ i j a b, i ≠ j → records !! i = Some a → records !! j = Some b →
             compareFn column "asc" a b ≠ 0.

(** The requests that the claim about the reported total [T] expects:
    the probe, then one page request per offset below [T]. *)
Definition issues_pages_below (srv : Request → FetchResult) (st : State)
    (T : Z) : Prop :=
  requests (onMounted srv st).2
  = requests st ++ probe :: (page_request <$> offsets T).

(** The records the table is given to sort and to show. *)
Definition sortedRows (st : State) : list Product :=
  arr (sortedFilteredProducts st).2 (sortedFilteredProducts st).1.

Definition pageRows (st : State) : list Product :=
  arr (paginatedProducts st).2 (paginatedProducts st).1.

(** The states the component can be in: the three references point to
    objects of the right kind, and [filtered] is the value of
    [filteredProducts] for the current query and collection, which is the
    collection itself exactly when the query is empty. *)
Record wf (st : State) : Prop := {
  wf_products : ∃ items, heap st !! products st = Some (Arr items);
  wf_filtered : ∃ items, heap st !! filtered st = Some (Arr items);
  wf_sort : ∃ column direction,
    heap st !! sort st = Some (Obj column direction);
  wf_same : search st = "" → filtered st = products st;
  wf_fresh : search st ≠ "" → filtered st ≠ products st;
  wf_contents :
    arr (heap st) (filtered st)
    = filterProducts (search st) (arr (heap st) (products st))
}.
End Notions.

(** ** A concrete host and sample data, to run the component *)

(** Lower-casing of the letters A-Z. *)
Definition lower_ascii (c : ascii) : ascii :=
  let n := nat_of_ascii c in
  if (65 <=? n)%nat && (n <=? 90)%nat then ascii_of_nat (n + 32) else c.

Fixpoint lower (s : string) : string :=
  match s with
  | EmptyString => EmptyString
  | String c s' => String (lower_ascii c) (lower s')
  end.

(** Comparison by code units, the first difference deciding. *)
Fixpoint codeunit_compare (s t : string) : Z :=
  match s, t with
  | EmptyString, EmptyString => 0
  | EmptyString, String _ _ => -1
  | String _ _, EmptyString => 1
  | String a s', String b t' =>
      let d := Z.of_nat (nat_of_ascii a) - Z.of_nat (nat_of_ascii b) in
      if d =? 0 then codeunit_compare s' t' else d
  end.

(** Three records, and a shelf of twelve that differ in id and price. *)
Definition phone : Product :=
  mkProduct 1 "Phone X" "A smart phone" 549 4 "Apple" "smartphones" "1.png".
Definition laptop : Product :=
  mkProduct 2 "Laptop" "A light laptop" 1499 5 "Lenovo" "laptops" "2.png".
Definition lamp : Product :=
  mkProduct 3 "Lamp" "A desk lamp" 20 3 "Ikea" "home" "3.png".

Definition catalogue : list Product := [phone; laptop; lamp].

Definition shelf : list Product :=
  (λ n, mkProduct n "Box" "A box" (100 - n) 4 "Acme" "storage" "box.png")
    <$> seqZ 1 12.

(** A user on page 2 of the shelf, sorted by price, ascending. *)
Definition browsing : State :=
  mkState [Arr shelf; Obj "price" "asc"] 0%nat false "" 2 1%nat 0%nat [].

(** A server with 45 records that serves pages of two and of one. *)
Definition small_server (req : Request) : FetchResult :=
  match skip req with
  | None => Resolved (Some (Res.mk (Some 45) (Some [phone])))
  | Some s =>
      if s =? 0 then Resolved (Some (Res.mk (Some 45) (Some [phone; laptop])))
      else Resolved (Some (Res.mk (Some 45) (Some [lamp])))
  end.

(** The same server, failing on the second page. *)
Definition flaky_server (req : Request) : FetchResult :=
  if decide (req = page_request 30) then Rejected else small_server req.

(** A server that reports a total of 0 and serves empty pages. *)
Definition zero_server (req : Request) : FetchResult :=
  Resolved (Some (Res.mk (Some 0) (Some []))).

(** ** Further notions *)

(** The properties of [interface Product]. *)
Definition product_keys : list string :=
  ["id"; "title"; "description"; "price"; "rating"; "brand"; "category";
   "thumbnail"].

Section Reachable.
Context `{Host}.

(** [:total="sortedFilteredProducts.length"]: what the pagination control
    is told. *)
Definition paginationTotal (st : State) : Z :=
  Z.of_nat (length (sortedRows st)).

(** The states the component goes through: the one after [setup], and
    from a state the one after a user input, or after a run of the
    [onMounted] callback against some server. *)
Inductive reachable : State → Prop :=
  | reach_initial : reachable initial
  | reach_input ev st : reachable st → reachable (dispatch ev st)
  | reach_mounted srv st : reachable st → reachable (onMounted srv st).2.
End Reachable.

(** A server that holds the catalogue [db] and serves the records from
    [skip] on, at most [limit] of them. *)
Definition catalogue_server (db : list Product) (req : Request)
    : FetchResult :=
  let from := default 0 (skip req) in
  Resolved (Some (Res.mk (Some (Z.of_nat (length db)))
                    (Some (take (Z.to_nat (limit req))
                             (drop (Z.to_nat from) db))))).

(** Forty-five records. *)
Definition warehouse : list Product :=
  (λ n, mkProduct n "Crate" "A crate" (n * 3) 4 "Acme" "storage" "c.png")
    <$> seqZ 1 45.

(** ** The concrete host is a host *)

Lemma codeunit_compare_swap s t :
  Z.sgn (codeunit_compare t s) = - Z.sgn (codeunit_compare s t).
Proof.
  revert t. induction s as [|a s IH]; intros [|b t]; simpl; try reflexivity.
  destruct (Z.eqb_spec (Z.of_nat (nat_of_ascii b) - Z.of_nat (nat_of_ascii a)) 0),
    (Z.eqb_spec (Z.of_nat (nat_of_ascii a) - Z.of_nat (nat_of_ascii b)) 0);
    try lia; auto.
Qed.

Lemma codeunit_compare_trans s t u :
  codeunit_compare s t <= 0 → codeunit_compare t u <= 0 →
  codeunit_compare s u <= 0.
Proof.
  revert t u. induction s as [|a s IH]; intros [|b t] [|c u]; simpl; try lia.
  destruct (Z.eqb_spec (Z.of_nat (nat_of_ascii a) - Z.of_nat (nat_of_ascii b)) 0),
    (Z.eqb_spec (Z.of_nat (nat_of_ascii b) - Z.of_nat (nat_of_ascii c)) 0),
    (Z.eqb_spec (Z.of_nat (nat_of_ascii a) - Z.of_nat (nat_of_ascii c)) 0);
    try lia; eauto.
Qed.

Definition ascii_host : Host :=
  Build_Host lower codeunit_compare codeunit_compare_swap
    codeunit_compare_trans.

(** ** Substrings *)

Lemma append_cons a s t : String a s +:+ t = String a (s +:+ t).
Proof. reflexivity. Qed.

Lemma append_empty s : EmptyString +:+ s = s.
Proof. reflexivity. Qed.

Lemma prefix_true p s : String.prefix p s = true ↔ ∃ post, s = p +:+ post.
Proof.
  revert s. induction p as [|a p IH]; intros s; simpl.
  - split; [intros _; by exists s | by destruct s].
  - destruct s as [|b s]; simpl.
    + split; [done | by intros [post ?]].
    + setoid_rewrite append_cons.
      destruct (Ascii.ascii_dec a b) as [->|Hne].
      * rewrite IH. split; intros [post Hp]; exists post; congruence.
      * split; [done | intros [post ?]; congruence].
Qed.

Lemma includes_occurs s t : includes s t = true ↔ occurs_in t s.
Proof.
  unfold occurs_in. induction s as [|a s IH]; cbn [includes].
  - rewrite orb_false_r, prefix_true. split.
    + intros [post Hp]. by exists EmptyString, post.
    + intros ([|b pre] & post & Hp); [by exists post | done].
  - rewrite orb_true_iff, prefix_true, IH. split.
    + intros [[post Hp]|(pre & post & Hp)].
      * by exists EmptyString, post.
      * exists (String a pre), post. by rewrite Hp.
    + intros ([|b pre] & post & Hp).
      * left. by exists post.
      * right. exists pre, post. rewrite append_cons in Hp. congruence.
Qed.

(** ** The search filter *)

Section FilterProperties.
Context `{Host}.

Lemma truthy_nonempty s : truthy s = true ↔ s ≠ "".
Proof. by destruct s. Qed.

Lemma Array_some_true {A} (f : A → bool) xs :
  Array_some f xs = true ↔ ∃ x, x ∈ xs ∧ f x = true.
Proof.
  unfold Array_some. rewrite existsb_exists.
  by setoid_rewrite list_elem_of_In.
Qed.

Lemma matches_field_contains q r : matches q r = true ↔ field_contains q r.
Proof.
  unfold matches, field_contains. rewrite Array_some_true.
  by setoid_rewrite includes_occurs.
Qed.

#[global] Instance field_contains_dec q r : Decision (field_contains q r).
Proof.
  refine (cast_if (decide (matches q r = true)));
    by rewrite <- matches_field_contains.
Defined.

Lemma Array_filter_sublist {A} (f : A → bool) xs :
  sublist (Array_filter f xs) xs.
Proof.
  induction xs as [|x xs IH]; simpl; [constructor|].
  destruct (f x); by constructor.
Qed.

Lemma Array_filter_elem {A} (f : A → bool) xs x :
  x ∈ Array_filter f xs ↔ x ∈ xs ∧ f x = true.
Proof. unfold Array_filter. rewrite !list_elem_of_In. apply filter_In. Qed.

(** The boolean filter of the source keeps what the decidable predicate
    keeps, occurrence by occurrence. *)
Lemma Array_filter_decide {A} (f : A → bool) (P : A → Prop)
    `{∀ x, Decision (P x)} xs :
  (∀ x, f x = true ↔ P x) → Array_filter f xs = filter P xs.
Proof.
  intros HfP. induction xs as [|x xs IH]; [done|].
  simpl. rewrite filter_cons, IH.
  destruct (f x) eqn:Hfx, (decide (P x)) as [HP|HP]; try done.
  - destruct HP. by apply HfP.
  - apply HfP in HP. congruence.
Qed.

(** The getter of [filteredProducts] computes [filterProducts] on the
    contents of [products.value]. *)
Lemma filteredProducts_contents st :
  arr (filteredProducts st).2 (filteredProducts st).1
  = filterProducts (search st) (arr (heap st) (products st)).
Proof.
  unfold filteredProducts, filterProducts, heap_filter, alloc.
  destruct (truthy (search st)); simpl; [|done].
  unfold arr at 1. by rewrite lookup_app_r, Nat.sub_diag by done.
Qed.

(** With an empty query the getter returns [products.value] itself and
    allocates nothing. *)
Lemma filteredProducts_empty_query st :
  search st = "" → filteredProducts st = (products st, heap st).
Proof. unfold filteredProducts. by intros ->. Qed.

(** C8. Filtering by the empty query is the identity: the records that
    come out are the records that went in, in the same order; the getter
    hands back the very array of the collection and builds nothing. *)
Theorem filter_empty_query (records : list Product) :
  filterProducts "" records = records
  ∧ ∀ st, search st = "" → filteredProducts st = (products st, heap st).
Proof. split; [reflexivity | apply filteredProducts_empty_query]. Qed.

(** C1. For a non-empty query, the filter returns a subsequence of its
    input, and a record is in it exactly when it is in the input and one
    of its fields, as a string, contains the query, both in lower case;
    every occurrence of such a record is kept. *)
Theorem filter_keeps_matching (q : string) (records : list Product) :
  q ≠ "" →
  sublist (filterProducts q records) records
  ∧ (∀ r, r ∈ filterProducts q records ↔ r ∈ records ∧ field_contains q r)
  ∧ filterProducts q records = filter (field_contains q) records.
Proof.
  intros Hq%truthy_nonempty. unfold filterProducts. rewrite Hq. simpl.
  split_and!.
  - apply Array_filter_sublist.
  - intros r. by rewrite Array_filter_elem, matches_field_contains.
  - apply Array_filter_decide, matches_field_contains.
Qed.
End FilterProperties.

(** ** The pagination slicer *)

Section PaginateProperties.

(** For indices that are not negative, [slice] is [drop] then [take]. *)
Lemma Array_slice_nonneg {A} (xs : list A) (a b : Z) :
  0 ≤ a → 0 ≤ b →
  Array_slice xs a b = take (Z.to_nat (b - a)) (drop (Z.to_nat a) xs).
Proof.
  intros Ha Hb. unfold Array_slice, rel_index.
  destruct (Z.ltb_spec a 0), (Z.ltb_spec b 0); try lia.
  destruct (decide (Z.of_nat (length xs) ≤ a)) as [Hlen|Hlen].
  - rewrite !drop_ge by lia. by rewrite !take_nil.
  - rewrite (Z.min_l a) by lia.
    destruct (decide (b ≤ Z.of_nat (length xs))).
    + by rewrite (Z.min_l b) by lia.
    + rewrite (Z.min_r b) by lia.
      rewrite !take_ge; [done | rewrite length_drop; lia..].
Qed.

Lemma paginateProducts_take_drop (records : list Product) (page : Z) :
  1 ≤ page →
  paginateProducts page records
  = take (Z.to_nat pageSize)
      (drop (Z.to_nat ((page - 1) * pageSize)) records).
Proof.
  intros Hpage. unfold paginateProducts, pageSize.
  rewrite Array_slice_nonneg by lia. do 2 f_equal. lia.
Qed.

(** Cutting a list into [m] chunks of [ps] elements and gluing them
    back gives the list, when [m] chunks are enough. *)
Lemma concat_chunks {A} (ps m : nat) (xs : list A) :
  (length xs ≤ m * ps)%nat →
  concat ((λ i, take ps (drop (i * ps) xs)) <$> seq 0 m) = xs.
Proof.
  revert xs. induction m as [|m IH]; intros xs Hlen.
  - by destruct xs; [|simpl in Hlen; lia].
  - rewrite <- cons_seq, <- fmap_S_seq, fmap_cons, <- list_fmap_compose.
    simpl. rewrite drop_0.
    transitivity (take ps xs ++ drop ps xs); [|apply take_drop]. f_equal.
    rewrite <- (IH (drop ps xs)) by (rewrite length_drop; lia). f_equal.
    apply list_fmap_ext. intros _ i _. simpl.
    by rewrite drop_drop, Nat.add_comm.
Qed.

(** C2. For a page index of at least 1, the page is the run of
    [pageSize] records that starts at offset [(page - 1) * pageSize],
    cut at the end of the list (and empty past it); the pages 1 to
    [ceil(n / pageSize)], one after the other, give back the list; and
    the last of them has [n mod pageSize] records, or [pageSize] when
    that is 0, or none when the list is empty. *)
Theorem paginate_pages (records : list Product) :
  (∀ page, 1 ≤ page →
     paginateProducts page records
     = take (Z.to_nat pageSize)
         (drop (Z.to_nat ((page - 1) * pageSize)) records))
  ∧ let n := Z.of_nat (length records) in
    let last := (n + pageSize - 1) / pageSize in
    concat ((λ i, paginateProducts i records) <$> seqZ 1 last) = records
    ∧ Z.of_nat (length (paginateProducts last records))
      = if n =? 0 then 0
        else if n mod pageSize =? 0 then pageSize else n mod pageSize.
Proof.
  split; [apply paginateProducts_take_drop|].
  intros n last. subst n last. unfold pageSize.
  set (n := Z.of_nat (length records)).
  assert (Hn : 0 ≤ n) by lia.
  assert (Hdiv : 10 * ((n + 10 - 1) / 10) - 9 ≤ n ≤ 10 * ((n + 10 - 1) / 10)).
  { pose proof (Z.div_mod (n + 10 - 1) 10 ltac:(lia)).
    pose proof (Z.mod_pos_bound (n + 10 - 1) 10 ltac:(lia)). lia. }
  set (last := (n + 10 - 1) / 10) in *.
  split.
  - unfold seqZ. rewrite <- list_fmap_compose.
    etrans; [|apply (concat_chunks 10 (Z.to_nat last) records); lia].
    f_equal. apply list_fmap_ext. intros _ i _. simpl.
    rewrite paginateProducts_take_drop by lia. unfold pageSize.
    do 2 f_equal. lia.
  - destruct (Z.eqb_spec n 0) as [Hz|Hz].
    + assert (records = []) as ->
        by (destruct records; [done|simpl in *; lia]).
      unfold paginateProducts, Array_slice. by rewrite drop_nil, take_nil.
    + rewrite paginateProducts_take_drop by lia. unfold pageSize.
      rewrite length_take, length_drop.
      pose proof (Z.div_mod n 10 ltac:(lia)).
      pose proof (Z.mod_pos_bound n 10 ltac:(lia)).
      destruct (Z.eqb_spec (n mod 10) 0) as [Hm|Hm].
      * assert (last = n / 10) by lia. lia.
      * assert (last = n / 10 + 1) by lia. lia.
Qed.
End PaginateProperties.

(** ** The sort engine *)

Section ArraySort.
Context {A : Type} (cmp : A → A → Z).

Lemma sort_insert_perm x xs : sort_insert cmp x xs ≡ₚ x :: xs.
Proof.
  induction xs as [|y ys IH]; simpl; [done|].
  destruct (0 <? cmp x y); [|done].
  rewrite IH. apply Permutation_swap.
Qed.

Lemma Array_sort_perm xs : Array_sort cmp xs ≡ₚ xs.
Proof.
  induction xs as [|x xs IH]; simpl; [done|].
  fold (Array_sort cmp xs). by rewrite sort_insert_perm, IH.
Qed.

Hypothesis consistent : Consistent cmp.

Lemma equal_keys_trans r x y : cmp r x = 0 → cmp r y = 0 → cmp x y = 0.
Proof.
  intros Hx Hy.
  pose proof (cmp_swap _ consistent r x).
  pose proof (cmp_swap _ consistent r y).
  pose proof (cmp_swap _ consistent x y).
  pose proof (cmp_trans _ consistent x r y).
  pose proof (cmp_trans _ consistent y r x). lia.
Qed.

Lemma sort_insert_sorted x xs :
  StronglySorted (not_after cmp) xs →
  StronglySorted (not_after cmp) (sort_insert cmp x xs).
Proof.
  induction 1 as [|y ys Hys IH Hy]; simpl.
  { repeat constructor. }
  destruct (Z.ltb_spec 0 (cmp x y)) as [Hgt|Hle].
  - constructor; [done|].
    rewrite sort_insert_perm. constructor; [|done].
    unfold not_after. pose proof (cmp_swap _ consistent x y). lia.
  - constructor; [by constructor|].
    constructor; [done|].
    eapply Forall_impl; [exact Hy|]. intros z Hz.
    by apply (cmp_trans _ consistent x y z).
Qed.

Lemma Array_sort_sorted xs : StronglySorted (not_after cmp) (Array_sort cmp xs).
Proof.
  induction xs as [|x xs IH]; simpl; [constructor|].
  by apply sort_insert_sorted.
Qed.

(** Insertion never carries an element over one with an equal key. *)
Lemma sort_insert_stable r x xs :
  filter (λ y, cmp r y = 0) (sort_insert cmp x xs)
  = filter (λ y, cmp r y = 0) (x :: xs).
Proof.
  induction xs as [|y ys IH]; simpl; [done|].
  destruct (Z.ltb_spec 0 (cmp x y)) as [Hgt|Hle]; [|done].
  rewrite (filter_cons _ y), IH, !filter_cons.
  destruct (decide (cmp r y = 0)) as [Hy|Hy],
    (decide (cmp r x = 0)) as [Hx|Hx]; try done.
  pose proof (equal_keys_trans r x y Hx Hy). lia.
Qed.

Lemma Array_sort_stable r xs :
  filter (λ y, cmp r y = 0) (Array_sort cmp xs)
  = filter (λ y, cmp r y = 0) xs.
Proof.
  induction xs as [|x xs IH]; simpl; [done|].
  fold (Array_sort cmp xs).
  by rewrite sort_insert_stable, !filter_cons, IH.
Qed.

Lemma cmp_refl x : cmp x x = 0.
Proof. pose proof (cmp_swap _ consistent x x). lia. Qed.

(** The language leaves the sorting algorithm open.  For a consistent
    comparator the result is determined all the same: two sorted lists
    that list the records of every key in the same order are equal, so
    any sorted and stable rearrangement of [xs] is [Array_sort cmp xs]. *)
Lemma stable_sorted_unique xs ys :
  StronglySorted (not_after cmp) xs → StronglySorted (not_after cmp) ys →
  (∀ r, filter (λ y, cmp r y = 0) xs = filter (λ y, cmp r y = 0) ys) →
  xs = ys.
Proof.
  intros Hxs. revert ys.
  induction Hxs as [|x xs Hxs IH Hx]; intros ys Hys Heq.
  { destruct ys as [|y ys]; [done|].
    specialize (Heq y). rewrite filter_cons_True in Heq by apply cmp_refl.
    done. }
  destruct Hys as [|y ys Hys Hy].
  { specialize (Heq x). rewrite filter_cons_True in Heq by apply cmp_refl.
    done. }
  rewrite Forall_forall in Hx, Hy.
  assert (Hxy : cmp x y = 0).
  { assert (x ∈ y :: ys) as Hin.
    { eapply (list_elem_of_filter (λ z, cmp x z = 0)). rewrite <- Heq.
      rewrite filter_cons_True by apply cmp_refl. left. }
    assert (y ∈ x :: xs) as Hin'.
    { eapply (list_elem_of_filter (λ z, cmp y z = 0)). rewrite Heq.
      rewrite filter_cons_True by apply cmp_refl. left. }
    pose proof (cmp_swap _ consistent x y).
    pose proof (cmp_refl x). pose proof (cmp_refl y).
    apply elem_of_cons in Hin as [->|Hin]; [done|].
    apply elem_of_cons in Hin' as [->|Hin']; [done|].
    specialize (Hx _ Hin'). specialize (Hy _ Hin).
    unfold not_after in *. lia. }
  assert (x = y) as <-.
  { specialize (Heq x).
    rewrite !filter_cons_True in Heq by (done || apply cmp_refl).
    congruence. }
  f_equal. apply IH; [done|]. intros r. specialize (Heq r).
  rewrite !filter_cons in Heq. destruct (decide (cmp r x = 0)); congruence.
Qed.

Lemma Array_sort_unique xs ys :
  StronglySorted (not_after cmp) ys →
  (∀ r, filter (λ y, cmp r y = 0) ys = filter (λ y, cmp r y = 0) xs) →
  ys = Array_sort cmp xs.
Proof.
  intros Hys Heq. apply stable_sorted_unique; [done|apply Array_sort_sorted|].
  intros r. by rewrite Array_sort_stable.
Qed.

Lemma StronglySorted_reverse (R : relation A) xs :
  StronglySorted R xs → StronglySorted (flip R) (reverse xs).
Proof.
  induction 1 as [|x xs Hxs IH Hx]; [constructor|].
  rewrite reverse_cons. apply StronglySorted_app_2; [|done|repeat constructor].
  intros x1 x2 Hx1 ->%list_elem_of_singleton.
  rewrite elem_of_reverse in Hx1. rewrite Forall_forall in Hx.
  by apply Hx.
Qed.
End ArraySort.

Section SortProperties.
Context `{Host}.

(** The type of [record[column]] depends on the column only. *)
Lemma get_shape column :
  (∀ p, ∃ s, get p column = VStr s)
  ∨ (∀ p, ∃ n, get p column = VNum n)
  ∨ (∀ p, get p column = VUndefined).
Proof.
  unfold get.
  repeat (destruct (String.eqb column _); [by eauto|]). by eauto.
Qed.

Lemma compareFn_consistent column direction :
  Consistent (compareFn column direction).
Proof.
  unfold compareFn.
  destruct (get_shape column) as [Hs|[Hn|Hu]]; split.
  - intros a b. destruct (Hs a) as [x ->], (Hs b) as [y ->]. simpl.
    destruct (String.eqb direction "asc"); apply localeCompare_swap.
  - intros a b c. destruct (Hs a) as [x ->], (Hs b) as [y ->],
      (Hs c) as [z ->]. simpl.
    destruct (String.eqb direction "asc"); eauto using localeCompare_trans.
  - intros a b. destruct (Hn a) as [x ->], (Hn b) as [y ->]. simpl.
    destruct (String.eqb direction "asc"); lia.
  - intros a b c. destruct (Hn a) as [x ->], (Hn b) as [y ->],
      (Hn c) as [z ->]. simpl.
    destruct (String.eqb direction "asc"); lia.
  - intros a b. by rewrite !Hu.
  - intros a b c. by rewrite !Hu.
Qed.

(** Descending order compares as ascending order with the two records
    swapped. *)
Lemma compareFn_desc column a b :
  compareFn column "desc" a b = compareFn column "asc" b a.
Proof.
  unfold compareFn.
  destruct (get_shape column) as [Hs|[Hn|Hu]].
  - by destruct (Hs a) as [x ->], (Hs b) as [y ->].
  - by destruct (Hn a) as [x ->], (Hn b) as [y ->].
  - by rewrite !Hu.
Qed.

Lemma StronglySorted_weaken {A} (R R' : relation A) xs :
  (∀ a b, R a b → R' a b) → StronglySorted R xs → StronglySorted R' xs.
Proof.
  intros HR. induction 1 as [|x xs Hxs IH Hx]; constructor; [done|].
  eapply Forall_impl; [exact Hx|]. auto.
Qed.

Lemma Array_slice_all {A} (xs : list A) :
  Array_slice xs 0 (Z.of_nat (length xs)) = xs.
Proof.
  rewrite Array_slice_nonneg by lia. rewrite drop_0.
  apply take_ge. lia.
Qed.

Lemma sortProducts_unfold column direction records :
  sortProducts column direction records
  = if truthy column && truthy direction
    then Array_sort (compareFn column direction) records else records.
Proof.
  unfold sortProducts. rewrite Array_slice_all.
  by destruct (truthy column), (truthy direction).
Qed.

Lemma sortProducts_perm column direction records :
  sortProducts column direction records ≡ₚ records.
Proof.
  rewrite sortProducts_unfold.
  destruct (_ && _); [apply Array_sort_perm | done].
Qed.

(** With a column and a direction chosen, the result is in order. *)
Lemma sortProducts_sorted column direction records :
  column ≠ "" → direction ≠ "" →
  StronglySorted (not_after (compareFn column direction))
    (sortProducts column direction records).
Proof.
  intros Hc%truthy_nonempty Hd%truthy_nonempty.
  rewrite sortProducts_unfold, Hc, Hd.
  apply Array_sort_sorted, compareFn_consistent.
Qed.

(** C6. The sort is stable: whatever the column and the direction, the
    result is a rearrangement of the input in which the records whose
    key compares equal to the key of any given record [r] come in the
    order they had in the input. *)
Theorem sortProducts_stable (column direction : string) (records : list Product)
    (r : Product) :
  sortProducts column direction records ≡ₚ records
  ∧ filter (λ x, compareFn column direction r x = 0)
      (sortProducts column direction records)
    = filter (λ x, compareFn column direction r x = 0) records.
Proof.
  split; [apply sortProducts_perm|].
  rewrite sortProducts_unfold. destruct (_ && _); [|done].
  apply Array_sort_stable, compareFn_consistent.
Qed.

Lemma no_duplicate_keys_inj column records a b :
  no_duplicate_keys column records → a ∈ records → b ∈ records →
  compareFn column "asc" a b = 0 → a = b.
Proof.
  intros Hnd [i Hi]%list_elem_of_lookup [j Hj]%list_elem_of_lookup Hab.
  destruct (decide (i = j)) as [->|Hij]; [congruence|].
  by destruct (Hnd i j a b).
Qed.

(** Keys that are pairwise different values are enough when the
    comparator tells different values apart, as the numeric one does. *)
Lemma NoDup_no_duplicate_keys column records :
  (∀ a b, compareFn column "asc" a b = 0 → get a column = get b column) →
  NoDup ((λ p, get p column) <$> records) →
  no_duplicate_keys column records.
Proof.
  intros Hsep Hnd i j a b Hij Hi Hj Hab. apply Hij.
  apply (NoDup_lookup _ i j (get a column) Hnd).
  - by rewrite list_lookup_fmap, Hi.
  - rewrite list_lookup_fmap, Hj. simpl. f_equal. symmetry. by apply Hsep.
Qed.

Lemma numeric_keys_separated column a b :
  (∀ p, ∃ n, get p column = VNum n) →
  compareFn column "asc" a b = 0 → get a column = get b column.
Proof.
  intros Hn. unfold compareFn.
  destruct (Hn a) as [x ->], (Hn b) as [y ->]. simpl. intros. f_equal. lia.
Qed.

(** C7. When no two records have keys that compare equal, sorting the
    ascending result in descending order by the same column gives the
    ascending result read backwards. *)
Theorem sort_desc_reverses_asc (column : string)
    (records : list Product) :
  no_duplicate_keys column records →
  sortProducts column "desc" (sortProducts column "asc" records)
  = reverse (sortProducts column "asc" records).
Proof.
  intros Hnd. rewrite !sortProducts_unfold. simpl. rewrite !andb_true_r.
  destruct (truthy column) eqn:Hc.
  - set (asc := Array_sort (compareFn column "asc") records).
    assert (Hasc : asc ≡ₚ records) by apply Array_sort_perm.
    apply (StronglySorted_unique_strong
             (not_after (compareFn column "desc"))).
    + intros x1 x2 Hx1 Hx2 H12 H21.
      rewrite Array_sort_perm, Hasc in Hx1.
      rewrite elem_of_reverse, Hasc in Hx2.
      unfold not_after in *.
      pose proof (cmp_swap _ (compareFn_consistent column "desc") x1 x2).
      symmetry. apply (no_duplicate_keys_inj column records); try done.
      rewrite <- compareFn_desc. lia.
    + apply Array_sort_sorted, compareFn_consistent.
    + eapply StronglySorted_weaken;
        [|apply StronglySorted_reverse, Array_sort_sorted,
           (compareFn_consistent column "asc")].
      intros a b. unfold flip, not_after. by rewrite compareFn_desc.
    + by rewrite Array_sort_perm, reverse_Permutation.
  - destruct column; [|done].
    destruct records as [|a [|b records]]; [done..|].
    by destruct (Hnd 0%nat 1%nat a b).
Qed.

(** The getter of [sortedFilteredProducts] computes [sortProducts] on
    the contents of [filteredProducts.value], into a new array. *)
Lemma sortedFilteredProducts_contents st :
  (sortedFilteredProducts st).1 = length (heap st)
  ∧ arr (sortedFilteredProducts st).2 (sortedFilteredProducts st).1
    = sortProducts (obj (heap st) (sort st)).1 (obj (heap st) (sort st)).2
        (arr (heap st) (filtered st)).
Proof.
  unfold sortedFilteredProducts, sortProducts, heap_slice, heap_sort, alloc.
  destruct (obj (heap st) (sort st)) as [column direction]. simpl.
  assert (Hnew : ∀ xs, arr (heap st ++ [Arr xs]) (length (heap st)) = xs).
  { intros xs. unfold arr. by rewrite lookup_app_r, Nat.sub_diag by done. }
  destruct (negb (truthy column) || negb (truthy direction)); simpl.
  - by rewrite Hnew.
  - split; [done|]. rewrite Hnew. unfold arr.
    rewrite list_lookup_insert_eq; [done|]. rewrite length_app. simpl. lia.
Qed.

(** C9. Sorting does not touch what it reads: the getter returns a new
    array, distinct from the raw collection and from the filtered view,
    and every object that existed before it ran, these two among them,
    is afterwards as it was. *)
Theorem sort_non_mutating (st : State) :
  (products st < length (heap st))%nat →
  (filtered st < length (heap st))%nat →
  let '(sorted, h) := sortedFilteredProducts st in
  sorted ≠ products st ∧ sorted ≠ filtered st
  ∧ arr h (products st) = arr (heap st) (products st)
  ∧ arr h (filtered st) = arr (heap st) (filtered st)
  ∧ (∀ l, (l < length (heap st))%nat → h !! l = heap st !! l)
  ∧ arr h sorted
    = sortProducts (obj (heap st) (sort st)).1 (obj (heap st) (sort st)).2
        (arr (heap st) (filtered st)).
Proof.
  intros Hp Hf.
  destruct (sortedFilteredProducts_contents st) as [Hnew Hcontents].
  destruct (sortedFilteredProducts st) as [sorted h] eqn:Heq.
  simpl in Hnew, Hcontents.
  assert (Hframe : ∀ l, (l < length (heap st))%nat → h !! l = heap st !! l).
  { intros l Hl. revert Heq.
    unfold sortedFilteredProducts, heap_slice, heap_sort, alloc.
    destruct (obj (heap st) (sort st)) as [column direction].
    destruct (negb (truthy column) || negb (truthy direction));
      intros [= <- <-].
    - by rewrite lookup_app_l.
    - rewrite list_lookup_insert_ne by lia. by rewrite lookup_app_l. }
  split_and!; [lia | lia | | | done | done].
  - unfold arr. by rewrite Hframe.
  - unfold arr. by rewrite Hframe.
Qed.

(** The getter of [paginatedProducts] computes [paginateProducts] on the
    sorted rows, into a new array. *)
Lemma paginatedProducts_contents st :
  pageRows st = paginateProducts (page st) (sortedRows st).
Proof.
  unfold pageRows, sortedRows, paginatedProducts, paginateProducts.
  destruct (sortedFilteredProducts st) as [sorted h]. simpl.
  unfold heap_slice, alloc, arr at 1. simpl.
  by rewrite lookup_app_r, Nat.sub_diag by done.
Qed.
End SortProperties.

(** ** The page fetcher *)

Section FetchLoop.
Context (srv : Request → FetchResult) (total : Z) (result : loc).

Lemma fetchPages_step skip st :
  fetchPages srv total result skip st
  = if decide (skip < total) then
      match fetch srv (page_request skip) st with
      | (Normal res, st1) =>
          fetchPages srv total result (skip + fetchLimit)
            (push_products result res st1)
      | (Throw e, st1) => (Throw e, st1)
      end
    else (Normal (), st).
Proof.
  rewrite fetchPages_equation_1. by destruct (decide (skip < total)).
Qed.

Lemma offsets_from_done skip : ¬ skip < total → offsets_from skip total = [].
Proof.
  intros Hge. unfold offsets_from, fetchLimit.
  assert ((total - skip + 30 - 1) / 30 ≤ 0) as Hn.
  { apply Z.lt_succ_r, Z.div_lt_upper_bound; lia. }
  unfold seqZ. by replace (Z.to_nat _) with 0%nat by lia.
Qed.

Lemma offsets_from_step skip :
  skip < total →
  offsets_from skip total = skip :: offsets_from (skip + fetchLimit) total.
Proof.
  intros Hlt. unfold offsets_from, fetchLimit.
  replace ((total - (skip + 30) + 30 - 1) / 30)
    with (Z.pred ((total - skip + 30 - 1) / 30)).
  2:{ replace (total - skip + 30 - 1)
        with (total - (skip + 30) + 30 - 1 + 1 * 30) by lia.
      rewrite Z.div_add by lia. lia. }
  assert (0 < (total - skip + 30 - 1) / 30) as Hn.
  { apply Z.div_str_pos. lia. }
  rewrite (seqZ_cons 0) by done. rewrite fmap_cons. f_equal; [lia|].
  rewrite <- (fmap_add_seqZ 1 0). rewrite <- list_fmap_compose.
  apply list_fmap_ext. intros _ k _. simpl. lia.
Qed.

Lemma offsets_from_0 : offsets total = offsets_from 0 total.
Proof.
  unfold offsets, offsets_from. rewrite Z.sub_0_r.
  apply list_fmap_ext. intros _ k _. simpl. lia.
Qed.

Lemma loop_frame_refl st : loop_frame result st st.
Proof. by repeat split. Qed.

Lemma loop_frame_trans st1 st2 st3 :
  loop_frame result st1 st2 → loop_frame result st2 st3 →
  loop_frame result st1 st3.
Proof.
  intros (Hv1 & Hl1 & Hh1) (Hv2 & Hl2 & Hh2). split_and!; [congruence..|].
  intros l Hl. by rewrite Hh2, Hh1.
Qed.

Lemma loop_body_frame req res st :
  loop_frame result st (push_products result res (with_request req st)).
Proof.
  destruct res as [[t [ps|]]|]; simpl; try by repeat split.
  split_and!; [done| |].
  - unfold heap_push. simpl. by rewrite length_insert.
  - intros l Hl. unfold heap_push. simpl.
    by rewrite list_lookup_insert_ne.
Qed.

(** Whatever the server answers, the loop leaves the reactive cells and
    every object but [result] alone. *)
Lemma fetchPages_frame skip st :
  loop_frame result st (fetchPages srv total result skip st).2.
Proof.
  funelim (fetchPages srv total result skip st); [|apply loop_frame_refl].
  unfold fetch. destruct (srv _) as [|res]; simpl.
  - by repeat split.
  - eapply loop_frame_trans; [apply loop_body_frame|].
    apply (H (Normal res)).
Qed.

(** A rejected page request makes the loop throw. *)
Lemma fetchPages_rejected skip st s :
  s ∈ offsets_from skip total → srv (page_request s) = Rejected →
  (fetchPages srv total result skip st).1 = Throw FetchError.
Proof.
  funelim (fetchPages srv total result skip st).
  - rewrite offsets_from_step by done. intros Hs Hrej.
    unfold fetch. fold (page_request skip0).
    destruct (srv (page_request skip0)) as [|res] eqn:Hres; [done|].
    simpl. apply elem_of_cons in Hs as [->|Hs]; [congruence|].
    by apply (H (Normal res) _ _ s).
  - rewrite offsets_from_done by done. by intros ?%elem_of_nil.
Qed.

(** When no page request is rejected, the loop completes, having sent
    one request per offset and appended each page to [result]. *)
Lemma fetchPages_resolved skip st :
  (result < length (heap st))%nat →
  (∀ s, s ∈ offsets_from skip total → srv (page_request s) ≠ Rejected) →
  let '(c, st') := fetchPages srv total result skip st in
  c = Normal ()
  ∧ requests st'
    = requests st ++ (page_request <$> offsets_from skip total)
  ∧ arr (heap st') result
    = arr (heap st) result
      ++ concat ((λ s, records_of (srv (page_request s)))
                   <$> offsets_from skip total).
Proof.
  funelim (fetchPages srv total result skip st).
  - rewrite offsets_from_step by done. intros Hres Hok.
    unfold fetch. fold (page_request skip0).
    pose proof (Hok skip0 ltac:(left)) as Hhead.
    destruct (srv (page_request skip0)) as [|res] eqn:Hsrv; [done|].
    specialize (H (Normal res) (with_request (page_request skip0) st) res).
    destruct (fetchPages _ _ _ _ _) as [c st'].
    destruct H as (-> & Hreq & Harr).
    + destruct (loop_body_frame (page_request skip0) res st)
        as (_ & Hlen & _). lia.
    + intros s Hs. apply Hok. by right.
    + split_and!; [done| |].
      * rewrite Hreq. rewrite fmap_cons, (cons_middle (page_request skip0)).
        rewrite app_assoc. f_equal.
        by destruct res as [[t [ps|]]|].
      * rewrite Harr. rewrite fmap_cons. simpl. rewrite Hsrv, app_assoc.
        f_equal.
        destruct res as [[t [ps|]]|]; simpl; rewrite ?app_nil_r; try done.
        unfold heap_push, arr. simpl.
        by rewrite list_lookup_insert_eq by done.
  - rewrite offsets_from_done by done. intros _ _. simpl.
    by rewrite !app_nil_r.
Qed.
End FetchLoop.

Lemma fetchPages_ext srv srv' total result skip st :
  (∀ s, srv' (page_request s) = srv (page_request s)) →
  fetchPages srv' total result skip st = fetchPages srv total result skip st.
Proof.
  intros Hext. funelim (fetchPages srv total result skip st);
    rewrite fetchPages_step; destruct (decide _) as [?|?]; try done.
  unfold fetch. fold (page_request skip0). rewrite Hext.
  destruct (srv (page_request skip0)) as [|res]; [done|].
  by apply (H (Normal res)).
Qed.

Lemma arr_ext (h h' : list Cell) (l : nat) :
  h' !! l = h !! l → arr h' l = arr h l.
Proof. unfold arr. by intros ->. Qed.

Section Mounting.
Context `{Host}.

(** Propagation leaves the raw collection, the log and the existing
    objects as they are; it may add the array of a new filtered view. *)
Lemma flush_frame old st :
  products (flush old st) = products st
  ∧ requests (flush old st) = requests st
  ∧ loading (flush old st) = loading st
  ∧ ∀ l, (l < length (heap st))%nat → heap (flush old st) !! l = heap st !! l.
Proof.
  unfold flush. set (st1 := if (_ : bool) then recompute st else st).
  assert (products st1 = products st ∧ requests st1 = requests st
          ∧ loading st1 = loading st
          ∧ ∀ l, (l < length (heap st))%nat → heap st1 !! l = heap st !! l)
    as (Hp & Hr & Hl & Hh).
  { subst st1. destruct (_ || _); [|done].
    unfold recompute, filteredProducts, heap_filter, alloc.
    destruct (negb (truthy (search st))); simpl; split_and!; try done.
    intros l Hl. by rewrite lookup_app_l. }
  clearbody st1. unfold watch_job. by destruct (_ || _).
Qed.

(** The run of [onMounted] once the probe has answered with [body]. *)
Lemma onMounted_probed srv st body :
  srv probe = Resolved (Some body) →
  onMounted srv st
  = let total := or_default (Res.total body) 100 in
    let result := length (heap st) in
    let st1 :=
      with_heap (heap st ++ [Arr []])
        (with_request probe (with_loading true st)) in
    match fetchPages srv total result 0 st1 with
    | (Normal _, st2) =>
        (Normal (), with_loading false (flush st2 (with_products result st2)))
    | (Throw _, st2) => (Normal (), with_loading false st2)
    end.
Proof.
  intros Hprobe.
  unfold onMounted, try_finally, try_catch, mbind, Eff_bind, modify, fetch.
  fold probe. rewrite Hprobe. simpl.
  by destruct (fetchPages _ _ _ _ _) as [[[]|e] st2].
Qed.

(** A probe that is rejected, or that resolves to no body, ends the run
    at once: only the log and the loading flag were written. *)
Lemma onMounted_probe_failed srv st :
  srv probe = Rejected ∨ srv probe = Resolved None →
  onMounted srv st
  = (Normal (), with_loading false (with_request probe (with_loading true st))).
Proof.
  unfold onMounted, try_finally, try_catch, mbind, Eff_bind, modify, fetch.
  by intros [-> | ->].
Qed.

(** Whatever the server does, the callback completes normally and the
    loading flag is down afterwards. *)
Lemma onMounted_completes srv st :
  (onMounted srv st).1 = Normal () ∧ loading (onMounted srv st).2 = false.
Proof.
  destruct (srv probe) as [|[body|]] eqn:Hprobe.
  - unfold onMounted, try_finally, try_catch, mbind, Eff_bind, modify, fetch.
    fold probe. by rewrite Hprobe.
  - rewrite (onMounted_probed srv st body Hprobe). simpl.
    by destruct (fetchPages _ _ _ _ _) as [[[]|e] st2].
  - unfold onMounted, try_finally, try_catch, mbind, Eff_bind, modify, fetch.
    fold probe. by rewrite Hprobe.
Qed.

Lemma onMounted_resolved srv st body :
  srv probe = Resolved (Some body) →
  (∀ s, s ∈ offsets (or_default (Res.total body) 100) →
        srv (page_request s) ≠ Rejected) →
  let T := or_default (Res.total body) 100 in
  let '(c, st') := onMounted srv st in
  c = Normal ()
  ∧ requests st' = requests st ++ probe :: (page_request <$> offsets T)
  ∧ arr (heap st') (products st')
    = concat ((λ s, records_of (srv (page_request s))) <$> offsets T)
  ∧ loading st' = false.
Proof.
  intros Hprobe Hok T. rewrite (onMounted_probed srv st body Hprobe).
  fold T. cbv zeta.
  set (st1 := with_heap _ _). set (result := length (heap st)).
  pose proof (fetchPages_resolved srv T result 0 st1) as Hloop.
  pose proof (fetchPages_frame srv T result 0 st1) as (_ & Hlen & _).
  destruct (fetchPages srv T result 0 st1) as [c st2]. simpl in Hlen.
  rewrite <- offsets_from_0 in Hloop.
  destruct Hloop as (-> & Hreq & Harr).
  { subst st1 result. simpl. rewrite length_app. simpl. lia. }
  { done. }
  assert (Hres : (result < length (heap st2))%nat).
  { rewrite Hlen. subst st1 result. simpl. rewrite length_app. simpl. lia. }
  destruct (flush_frame st2 (with_products result st2))
    as (Hp & Hr & _ & Hh).
  split_and!; [done| | |done].
  - simpl. rewrite Hr. simpl. rewrite Hreq. subst st1. simpl.
    by rewrite <- app_assoc.
  - simpl. rewrite Hp. simpl.
    rewrite (arr_ext (heap st2) _ result) by (by apply Hh).
    rewrite Harr. subst st1 result. unfold arr. simpl.
    by rewrite lookup_app_r, Nat.sub_diag by done.
Qed.

(** C3, for a reported total other than 0. When the probe reports the
    total [T], which is not 0, and no page request is rejected, the
    callback sends, after the probe, one request of 30 records for each
    offset 0, 30, 60, ... below [T], in this order, and the collection
    becomes the records of these pages, one page after the other; a page
    without the records field counts for none.  For [T = 45] these are
    the two requests at 0 and 30, and the collection has as many records
    as the two pages together. *)
Theorem fetch_all_pages srv st body T :
  srv probe = Resolved (Some body) → Res.total body = Some T → T ≠ 0 →
  (∀ s, s ∈ offsets T → srv (page_request s) ≠ Rejected) →
  let '(c, st') := onMounted srv st in
  c = Normal ()
  ∧ issues_pages_below srv st T
  ∧ arr (heap st') (products st')
    = concat ((λ s, records_of (srv (page_request s))) <$> offsets T)
  ∧ loading st' = false
  ∧ (T = 45 →
     requests st'
     = requests st ++ [probe; page_request 0; page_request 30]
     ∧ length (arr (heap st') (products st'))
       = (length (records_of (srv (page_request 0)))
          + length (records_of (srv (page_request 30))))%nat).
Proof.
  intros Hprobe Htotal HT Hok.
  assert (HTeq : or_default (Res.total body) 100 = T).
  { rewrite Htotal. simpl. by destruct (Z.eqb_spec T 0). }
  pose proof (onMounted_resolved srv st body Hprobe) as Hrun.
  rewrite HTeq in Hrun. specialize (Hrun Hok). cbv zeta in Hrun.
  unfold issues_pages_below.
  destruct (onMounted srv st) as [c st'].
  destruct Hrun as (-> & Hreq & Harr & Hload).
  split_and!; try done.
  intros ->. split; [by rewrite Hreq|].
  rewrite Harr. simpl. by rewrite app_nil_r, length_app.
Qed.

(** C4. When the probe has answered and one of the page requests is
    rejected, the callback still completes normally; the collection is
    the array it was before, with the contents it had (the pages
    received so far are in an array nothing refers to), the filtered
    view and the page index are unchanged, and the loading flag is
    down. *)
Theorem fetch_failure_atomic srv st body s :
  srv probe = Resolved (Some body) →
  s ∈ offsets (or_default (Res.total body) 100) →
  srv (page_request s) = Rejected →
  (products st < length (heap st))%nat →
  let '(c, st') := onMounted srv st in
  c = Normal ()
  ∧ products st' = products st
  ∧ arr (heap st') (products st') = arr (heap st) (products st)
  ∧ filtered st' = filtered st
  ∧ page st' = page st
  ∧ loading st' = false.
Proof.
  intros Hprobe Hs Hrej Hp. rewrite (onMounted_probed srv st body Hprobe).
  cbv zeta. set (T := or_default _ _) in *.
  set (st1 := with_heap _ _). set (result := length (heap st)).
  rewrite offsets_from_0 in Hs.
  pose proof (fetchPages_rejected srv T result 0 st1 s Hs Hrej) as Hthrow.
  pose proof (fetchPages_frame srv T result 0 st1) as (Hview & _ & Hheap).
  destruct (fetchPages srv T result 0 st1) as [c st2].
  simpl in Hthrow, Hview, Hheap. subst c.
  injection Hview as Hprod _ _ Hpage _ Hfilt.
  split_and!; simpl; try done.
  rewrite Hprod. subst st1. simpl. apply arr_ext.
  rewrite Hheap by (subst result; simpl; lia). simpl.
  by rewrite lookup_app_l.
Qed.

(** C10. A probe that reports a total of 0 is handled as a probe that
    reports no total: the fallback 100 applies, so that (no request
    being rejected) the pages at 0, 30, 60 and 90 are requested, and
    the run is the one a server without the total field would give. *)
Theorem zero_total_uses_fallback srv st body :
  srv probe = Resolved (Some body) → Res.total body = Some 0 →
  (∀ s, s ∈ [0; 30; 60; 90] → srv (page_request s) ≠ Rejected) →
  requests (onMounted srv st).2
  = requests st ++ probe :: (page_request <$> [0; 30; 60; 90])
  ∧ ∀ srv',
      srv' probe = Resolved (Some (Res.mk None (Res.products body))) →
      (∀ s, srv' (page_request s) = srv (page_request s)) →
      onMounted srv' st = onMounted srv st.
Proof.
  intros Hprobe Htotal Hok. split.
  - pose proof (onMounted_resolved srv st body Hprobe) as Hrun.
    rewrite Htotal in Hrun. specialize (Hrun Hok). cbv zeta in Hrun.
    destruct (onMounted srv st) as [c st']. simpl.
    by destruct Hrun as (_ & -> & _).
  - intros srv' Hprobe' Hext.
    rewrite (onMounted_probed srv st body Hprobe).
    rewrite (onMounted_probed srv' st _ Hprobe').
    rewrite Htotal. cbv zeta. simpl.
    by rewrite (fetchPages_ext srv srv').
Qed.
End Mounting.

(** ** The watcher and the page index *)

Lemma fetchPages_result_array srv total result skip st :
  (∃ items, heap st !! result = Some (Arr items)) →
  ∃ items,
    heap (fetchPages srv total result skip st).2 !! result = Some (Arr items).
Proof.
  funelim (fetchPages srv total result skip st); [|done].
  intros [items Hitems]. unfold fetch. destruct (srv _) as [|res]; simpl.
  { by exists items. }
  apply (H (Normal res)).
  destruct res as [[t [ps|]]|]; simpl; eauto.
  eexists. unfold heap_push. apply list_lookup_insert_eq.
  by eapply lookup_lt_Some.
Qed.

Section Watching.
Context `{Host}.

Lemma wf_initial : wf initial.
Proof. split; simpl; eauto; done. Qed.

Lemma hasChanged_same l : hasChanged l l = false.
Proof. unfold hasChanged. by rewrite Nat.eqb_refl. Qed.

Lemma hasChanged_true l l' : l ≠ l' → hasChanged l l' = true.
Proof. unfold hasChanged. intros Hne%Nat.eqb_neq. by rewrite Hne. Qed.

(** A write to the sort object reaches neither the getter of
    [filteredProducts] nor the watcher: nothing they read has changed. *)
Lemma flush_heap_only st h :
  flush st (with_heap h st) = with_heap h st.
Proof.
  unfold flush, watch_job. simpl.
  rewrite hasChanged_same, String.eqb_refl. simpl.
  by rewrite !hasChanged_same.
Qed.

Lemma toggle_keeps_page st : page (dispatch ClickToggle st) = page st.
Proof.
  unfold dispatch, handle, toggleSortDirection.
  destruct (obj (heap st) (sort st)) as [column direction].
  by rewrite flush_heap_only.
Qed.

Lemma select_column_keeps_page st c :
  page (dispatch (SelectColumn c) st) = page st.
Proof.
  unfold dispatch, handle, selectColumn.
  destruct (obj (heap st) (sort st)) as [column direction].
  by rewrite flush_heap_only.
Qed.

(** Choosing a page sets the page index and nothing resets it. *)
Lemma select_page_stays st p : page (dispatch (SelectPage p) st) = p.
Proof.
  unfold dispatch, handle, flush, watch_job. simpl.
  rewrite hasChanged_same, String.eqb_refl. simpl.
  by rewrite !hasChanged_same.
Qed.

(** A new query gives [filteredProducts] a new value, and the watcher
    puts the page index back to 1. *)
Lemma search_resets_page st q :
  wf st → q ≠ search st → page (dispatch (InputSearch q) st) = 1.
Proof.
  intros Hwf Hq. unfold dispatch, handle, flush. simpl.
  rewrite hasChanged_same. pose proof Hq as Hq'%String.eqb_neq.
  rewrite Hq'. simpl.
  unfold watch_job, recompute, filteredProducts, heap_filter, alloc. simpl.
  destruct Hwf as [_ [items Hf%lookup_lt_Some] _ Hsame Hfresh _].
  destruct q as [|a q]; simpl.
  - rewrite hasChanged_true; [done|].
    intros Heq. by apply Hfresh.
  - rewrite hasChanged_true; [done|]. lia.
Qed.

(** A query that matches no record leaves an empty view. *)
Lemma search_without_match st q :
  q ≠ "" → (∀ r, r ∈ arr (heap st) (products st) → ¬ field_contains q r) →
  let st' := dispatch (InputSearch q) st in
  q ≠ search st → arr (heap st') (filtered st') = [].
Proof.
  intros Hq Hnone st' Hne. subst st'.
  unfold dispatch, handle, flush. simpl.
  rewrite hasChanged_same. apply String.eqb_neq in Hne as ->. simpl.
  assert (Hre : arr (heap (recompute (with_search q st)))
                  (filtered (recompute (with_search q st))) = []).
  { unfold recompute.
    pose proof (filteredProducts_contents (with_search q st)) as Hc.
    destruct (filteredProducts _) as [f h]. simpl in *. rewrite Hc.
    apply truthy_nonempty in Hq. unfold filterProducts. rewrite Hq. simpl.
    apply elem_of_nil_inv. intros r [Hr Hm]%Array_filter_elem.
    apply matches_field_contains in Hm. by apply (Hnone r). }
  unfold watch_job. by destruct (_ || _).
Qed.

(** *** [wf] holds in every state the component reaches *)

Lemma wf_frame st st' :
  products st' = products st → search st' = search st →
  sort st' = sort st → filtered st' = filtered st →
  (∀ l c, heap st !! l = Some c → heap st' !! l = Some c) →
  wf st → wf st'.
Proof.
  intros Hp Hq Hs Hf Hh [[ps Hps] [fs Hfs] (c & d & Hcd) Hsame Hfresh Hc].
  split; rewrite ?Hp, ?Hq, ?Hs, ?Hf; eauto.
  rewrite (arr_ext (heap st) (heap st') (filtered st))
    by (by rewrite Hfs; apply Hh).
  by rewrite (arr_ext (heap st) (heap st') (products st))
    by (by rewrite Hps; apply Hh).
Qed.

Lemma wf_recompute st :
  (∃ items, heap st !! products st = Some (Arr items)) →
  (∃ column direction, heap st !! sort st = Some (Obj column direction)) →
  wf (recompute st).
Proof.
  intros [ps Hps] (c & d & Hcd).
  pose proof (filteredProducts_contents st) as Hcontents.
  unfold recompute. revert Hcontents.
  unfold filteredProducts, heap_filter, alloc.
  destruct (search st) as [|a q] eqn:Hq; simpl; intros Hcontents.
  - split; simpl; rewrite ?Hq; eauto; done.
  - pose proof (lookup_lt_Some _ _ _ Hps).
    split; simpl; rewrite ?Hq; try done.
    + exists ps. by rewrite lookup_app_l.
    + eexists. by rewrite lookup_app_r, Nat.sub_diag by done.
    + exists c, d. rewrite lookup_app_l; [done|by eapply lookup_lt_Some].
    + intros _. lia.
    + rewrite Hcontents. f_equal. symmetry. apply arr_ext.
      by rewrite lookup_app_l.
Qed.

Lemma wf_watch_job old st : wf st → wf (watch_job old st).
Proof.
  intros Hwf. unfold watch_job. destruct (_ || _); [|done].
  by apply (wf_frame st).
Qed.

Lemma wf_sort_write st c d :
  wf st → wf (with_heap (<[sort st := Obj c d]> (heap st)) st).
Proof.
  intros [[ps Hps] [fs Hfs] (c0 & d0 & Hcd) Hsame Hfresh Hc].
  assert (sort st ≠ products st) by congruence.
  assert (sort st ≠ filtered st) by congruence.
  split; simpl; try done.
  - exists ps. by rewrite list_lookup_insert_ne.
  - exists fs. by rewrite list_lookup_insert_ne.
  - exists c, d. apply list_lookup_insert_eq. by eapply lookup_lt_Some.
  - rewrite (arr_ext (heap st) _ (filtered st)),
      (arr_ext (heap st) _ (products st));
      [done | by rewrite list_lookup_insert_ne..].
Qed.

Lemma wf_dispatch ev st : wf st → wf (dispatch ev st).
Proof.
  intros Hwf. destruct ev as [q|c| |p]; unfold dispatch, handle.
  - unfold flush. apply wf_watch_job. simpl. rewrite hasChanged_same. simpl.
    destruct (String.eqb_spec q (search st)) as [->|Hq]; simpl.
    + by apply (wf_frame st).
    + destruct Hwf. by apply wf_recompute.
  - unfold selectColumn. destruct (obj _ _) as [c0 d0].
    rewrite flush_heap_only. by apply wf_sort_write.
  - unfold toggleSortDirection. destruct (obj _ _) as [c0 d0].
    rewrite flush_heap_only. by apply wf_sort_write.
  - unfold flush. apply wf_watch_job. simpl.
    rewrite hasChanged_same, String.eqb_refl. simpl. by apply (wf_frame st).
Qed.

Lemma wf_onMounted srv st : wf st → wf (onMounted srv st).2.
Proof.
  intros Hwf. destruct (srv probe) as [|[body|]] eqn:Hprobe.
  1,3: unfold onMounted, try_finally, try_catch, mbind, Eff_bind, modify,
         fetch; fold probe; rewrite Hprobe; simpl; by apply (wf_frame st).
  rewrite (onMounted_probed srv st body Hprobe). cbv zeta.
  set (T := or_default _ _). set (st1 := with_heap _ _).
  set (result := length (heap st)).
  pose proof (fetchPages_frame srv T result 0 st1) as (Hview & Hlen & Hheap).
  pose proof (fetchPages_result_array srv T result 0 st1) as Hres.
  destruct (fetchPages srv T result 0 st1) as [c st2].
  simpl in Hview, Hlen, Hheap, Hres.
  injection Hview as Hp _ Hq _ Hs Hf.
  assert (Hold : ∀ l cell, heap st !! l = Some cell → heap st2 !! l = Some cell).
  { intros l cell Hl. pose proof (lookup_lt_Some _ _ _ Hl).
    rewrite Hheap by (subst result; lia). subst st1. simpl.
    by rewrite lookup_app_l. }
  destruct c as [[]|e]; simpl.
  - apply (wf_frame (flush st2 (with_products result st2))); try done.
    unfold flush. apply wf_watch_job. simpl.
    destruct Hwf as [[ps Hps%lookup_lt_Some] _ (c0 & d0 & Hcd) _ _ _].
    rewrite hasChanged_true by (rewrite Hp; subst result; simpl; lia).
    simpl. apply wf_recompute; simpl.
    + apply Hres. subst st1 result. simpl. exists [].
      by rewrite lookup_app_r, Nat.sub_diag by done.
    + exists c0, d0. rewrite Hs. by apply Hold.
  - by apply (wf_frame st).
Qed.
End Watching.

(** ** The component at work *)

Section Examples.
#[local] Existing Instance ascii_host.

Example filter_finds_laptop : filterProducts "LAP" catalogue = [laptop].
Proof. reflexivity. Qed.

Example sort_by_price_desc :
  sortProducts "price" "desc" catalogue = [laptop; phone; lamp].
Proof. reflexivity. Qed.

Example second_page_of_shelf :
  id <$> paginateProducts 2 shelf = [11; 12].
Proof. reflexivity. Qed.

(** The theorems above, applied to the sample data. *)

Lemma filter_keeps_matching_witness :
  "LAP" ≠ ""
  ∧ sublist (filterProducts "LAP" catalogue) catalogue
  ∧ (∀ r, r ∈ filterProducts "LAP" catalogue
          ↔ r ∈ catalogue ∧ field_contains "LAP" r)
  ∧ filterProducts "LAP" catalogue
    = filter (field_contains "LAP") catalogue.
Proof.
  split; [done|]. apply (filter_keeps_matching "LAP" catalogue). done.
Defined.

Lemma filter_empty_query_witness :
  filterProducts "" catalogue = catalogue
  ∧ filteredProducts browsing = (products browsing, heap browsing).
Proof.
  destruct (filter_empty_query catalogue) as [Hvalue Hgetter].
  split; [exact Hvalue | apply Hgetter; reflexivity].
Defined.

Lemma paginate_pages_witness :
  paginateProducts 2 shelf
  = take (Z.to_nat pageSize) (drop (Z.to_nat ((2 - 1) * pageSize)) shelf)
  ∧ concat ((λ i, paginateProducts i shelf) <$> seqZ 1 2) = shelf
  ∧ Z.of_nat (length (paginateProducts 2 shelf)) = 2.
Proof.
  destruct (paginate_pages shelf) as [Hpage Hall].
  split; [apply Hpage; lia | exact Hall].
Defined.

Lemma sortProducts_stable_witness :
  sortProducts "brand" "desc" shelf ≡ₚ shelf
  ∧ filter (λ x, compareFn "brand" "desc" phone x = 0)
      (sortProducts "brand" "desc" shelf)
    = filter (λ x, compareFn "brand" "desc" phone x = 0) shelf.
Proof. exact (sortProducts_stable "brand" "desc" shelf phone). Defined.

Lemma catalogue_prices_differ : no_duplicate_keys "price" catalogue.
Proof.
  intros i j a b Hij Hi Hj.
  destruct i as [|[|[|i]]], j as [|[|[|j]]]; simplify_eq/=; done.
Defined.

Lemma sort_desc_reverses_asc_witness :
  no_duplicate_keys "price" catalogue
  ∧ sortProducts "price" "desc" (sortProducts "price" "asc" catalogue)
    = reverse (sortProducts "price" "asc" catalogue).
Proof.
  split; [exact catalogue_prices_differ|].
  exact (sort_desc_reverses_asc "price" catalogue catalogue_prices_differ).
Defined.

Lemma sort_non_mutating_witness :
  (products browsing < length (heap browsing))%nat
  ∧ (filtered browsing < length (heap browsing))%nat
  ∧ let '(sorted, h) := sortedFilteredProducts browsing in
    sorted ≠ products browsing ∧ sorted ≠ filtered browsing
    ∧ arr h (products browsing) = arr (heap browsing) (products browsing)
    ∧ arr h (filtered browsing) = arr (heap browsing) (filtered browsing)
    ∧ (∀ l, (l < length (heap browsing))%nat → h !! l = heap browsing !! l)
    ∧ arr h sorted
      = sortProducts (obj (heap browsing) (sort browsing)).1
          (obj (heap browsing) (sort browsing)).2
          (arr (heap browsing) (filtered browsing)).
Proof.
  split; [simpl; lia|]. split; [simpl; lia|].
  apply (sort_non_mutating browsing); simpl; lia.
Defined.

Lemma fetch_all_pages_witness :
  let '(c, st') := onMounted small_server initial in
  c = Normal ()
  ∧ issues_pages_below small_server initial 45
  ∧ arr (heap st') (products st')
    = concat ((λ s, records_of (small_server (page_request s)))
                <$> offsets 45)
  ∧ loading st' = false
  ∧ (45 = 45 →
     requests st'
     = requests initial ++ [probe; page_request 0; page_request 30]
     ∧ length (arr (heap st') (products st'))
       = (length (records_of (small_server (page_request 0)))
          + length (records_of (small_server (page_request 30))))%nat).
Proof.
  apply (fetch_all_pages small_server initial
           (Res.mk (Some 45) (Some [phone])) 45);
    [reflexivity | reflexivity | lia |].
  intros s _. unfold small_server. simpl. by destruct (s =? 0).
Defined.

Example fetch_two_pages :
  requests (onMounted small_server initial).2
  = [probe; page_request 0; page_request 30]
  ∧ arr (heap (onMounted small_server initial).2)
      (products (onMounted small_server initial).2)
    = [phone; laptop; lamp].
Proof. split; reflexivity. Qed.

(** The claim C3 read for every total: a total of 0 asks for no page, yet
    four are requested. *)
Lemma fetch_total_zero_counterexample :
  ¬ issues_pages_below zero_server initial 0.
Proof. unfold issues_pages_below. vm_compute. discriminate. Qed.

Lemma fetch_failure_atomic_witness :
  let '(c, st') := onMounted flaky_server initial in
  c = Normal ()
  ∧ products st' = products initial
  ∧ arr (heap st') (products st') = arr (heap initial) (products initial)
  ∧ filtered st' = filtered initial
  ∧ page st' = page initial
  ∧ loading st' = false.
Proof.
  apply (fetch_failure_atomic flaky_server initial
           (Res.mk (Some 45) (Some [phone])) 30);
    [reflexivity | apply list_elem_of_In; vm_compute; tauto | reflexivity
    | simpl; lia].
Defined.

Example failed_fetch_leaves_nothing :
  arr (heap (onMounted flaky_server initial).2)
    (products (onMounted flaky_server initial).2) = []
  ∧ requests (onMounted flaky_server initial).2
    = [probe; page_request 0; page_request 30].
Proof. split; reflexivity. Qed.

Lemma zero_total_uses_fallback_witness :
  requests (onMounted zero_server initial).2
  = requests initial ++ probe :: (page_request <$> [0; 30; 60; 90])
  ∧ ∀ srv',
      srv' probe = Resolved (Some (Res.mk None (Some []))) →
      (∀ s, srv' (page_request s) = zero_server (page_request s)) →
      onMounted srv' initial = onMounted zero_server initial.
Proof.
  apply (zero_total_uses_fallback zero_server initial
           (Res.mk (Some 0) (Some [])));
    [reflexivity | reflexivity | intros s _; discriminate].
Defined.

(** C5, where the code departs from it. On page 2 of the shelf sorted by
    price, a click on the direction button turns the sorted rows around,
    and the page index stays 2: the watcher looks at [sort.value], which
    is the same object before and after the click. *)
Theorem toggle_leaves_page :
  page browsing = 2
  ∧ sortedRows (dispatch ClickToggle browsing) = reverse (sortedRows browsing)
  ∧ sortedRows (dispatch ClickToggle browsing) ≠ sortedRows browsing
  ∧ sort (dispatch ClickToggle browsing) = sort browsing
  ∧ page (dispatch ClickToggle browsing) = 2.
Proof. split_and!; try reflexivity. vm_compute. discriminate. Qed.

(** The rows on screen before and after the click: page 2 of the other
    order, where page 1 was meant. *)
Example toggle_shows_other_page_2 :
  id <$> pageRows browsing = [2; 1]
  ∧ id <$> pageRows (dispatch ClickToggle browsing) = [11; 12].
Proof. split; reflexivity. Qed.

Example query_resets_page :
  page (dispatch (InputSearch "xyz-nomatch") browsing) = 1
  ∧ arr (heap (dispatch (InputSearch "xyz-nomatch") browsing))
      (filtered (dispatch (InputSearch "xyz-nomatch") browsing)) = [].
Proof. split; reflexivity. Qed.
End Examples.

(** ** More on the sort engine *)

Section MoreArraySort.
Context {A : Type} (cmp : A → A → Z).

Lemma StronglySorted_lookup_lt (R : relation A) xs i j a b :
  StronglySorted R xs → (i < j)%nat →
  xs !! i = Some a → xs !! j = Some b → R a b.
Proof.
  intros Hs. revert i j. induction Hs as [|x xs Hxs IH Hx]; intros i j Hij.
  { by rewrite lookup_nil. }
  destruct i as [|i], j as [|j]; try lia; simpl.
  - intros [= ->] Hb. rewrite Forall_forall in Hx.
    apply Hx. by eapply list_elem_of_lookup_2.
  - apply IH. lia.
Qed.

Lemma Array_filter_sorted (R : relation A) (f : A → bool) xs :
  StronglySorted R xs → StronglySorted R (Array_filter f xs).
Proof.
  induction 1 as [|x xs Hxs IH Hx]; simpl; [constructor|].
  destruct (f x); [|done]. constructor; [done|].
  rewrite Forall_forall in *. intros y [Hy _]%Array_filter_elem. auto.
Qed.

Lemma filter_Array_filter (P : A → Prop) `{∀ x, Decision (P x)}
    (f : A → bool) xs :
  filter P (Array_filter f xs) = Array_filter f (filter P xs).
Proof.
  induction xs as [|x xs IH]; [done|]. simpl. rewrite filter_cons.
  destruct (f x) eqn:Hf, (decide (P x)); simpl;
    rewrite ?filter_cons, ?Hf; try case_decide; try done; by rewrite IH.
Qed.

(** Comparators that agree give the same order. *)
Lemma Array_sort_ext (cmp' : A → A → Z) xs :
  (∀ a b, cmp a b = cmp' a b) → Array_sort cmp xs = Array_sort cmp' xs.
Proof.
  intros Hext. induction xs as [|x xs IH]; [done|]. simpl.
  fold (Array_sort cmp xs) (Array_sort cmp' xs). rewrite IH.
  generalize (Array_sort cmp' xs). intros ys.
  induction ys as [|y ys IHys]; [done|]. simpl. by rewrite Hext, IHys.
Qed.

(** A comparator that never says "after" moves nothing. *)
Lemma Array_sort_id xs :
  (∀ a b, cmp a b ≤ 0) → Array_sort cmp xs = xs.
Proof.
  intros Hle. induction xs as [|x xs IH]; [done|]. simpl.
  fold (Array_sort cmp xs). rewrite IH.
  destruct xs as [|y ys]; [done|]. simpl.
  destruct (Z.ltb_spec 0 (cmp x y)); [|done]. specialize (Hle x y). lia.
Qed.

Hypothesis consistent : Consistent cmp.

(** Sorting commutes with dropping elements. *)
Lemma Array_sort_filter (f : A → bool) xs :
  Array_filter f (Array_sort cmp xs) = Array_sort cmp (Array_filter f xs).
Proof.
  apply Array_sort_unique; [done| |].
  - apply Array_filter_sorted, Array_sort_sorted, consistent.
  - intros r. rewrite !filter_Array_filter.
    by rewrite Array_sort_stable.
Qed.

(** A sorted list is left as it is. *)
Lemma Array_sort_sorted_id xs :
  StronglySorted (not_after cmp) xs → Array_sort cmp xs = xs.
Proof. intros Hs. symmetry. by apply Array_sort_unique. Qed.
End MoreArraySort.

Section MoreSortProperties.
Context `{Host}.

(** X1. With a column and a direction chosen, the rows come out in
    order: a row is never after a row further down, by the comparator of
    the sort specification. *)
Theorem sortProducts_in_order (column direction : string)
    (records : list Product) (i j : nat) (a b : Product) :
  column ≠ "" → direction ≠ "" → (i < j)%nat →
  sortProducts column direction records !! i = Some a →
  sortProducts column direction records !! j = Some b →
  compareFn column direction a b ≤ 0.
Proof.
  intros Hc Hd Hij Ha Hb.
  apply truthy_nonempty in Hc. apply truthy_nonempty in Hd.
  rewrite sortProducts_unfold, Hc, Hd in Ha, Hb. simpl in Ha, Hb.
  eapply (StronglySorted_lookup_lt (not_after (compareFn column direction)));
    [|done..].
  apply Array_sort_sorted, compareFn_consistent.
Qed.

(** X2. Sorting twice by the same specification is sorting once. *)
Theorem sortProducts_idempotent (column direction : string)
    (records : list Product) :
  sortProducts column direction (sortProducts column direction records)
  = sortProducts column direction records.
Proof.
  rewrite !sortProducts_unfold. destruct (_ && _); [|done].
  apply Array_sort_sorted_id; [apply compareFn_consistent|].
  apply Array_sort_sorted, compareFn_consistent.
Qed.

Lemma get_unknown_key p column :
  column ∉ product_keys → get p column = VUndefined.
Proof.
  intros Hnot. unfold get.
  repeat match goal with
  | |- context [String.eqb column ?k] =>
      destruct (String.eqb_spec column k) as [Heq|_];
      [exfalso; apply Hnot; rewrite Heq; unfold product_keys;
       repeat constructor|]
  end.
  done.
Qed.

(** X3. A column that is no property of a product, or an empty
    direction, leaves the rows in the order they had. *)
Theorem sortProducts_no_key (column direction : string)
    (records : list Product) :
  column ∉ product_keys ∨ direction = "" →
  sortProducts column direction records = records.
Proof.
  intros Hor. rewrite sortProducts_unfold.
  destruct (truthy column && truthy direction) eqn:Ht; [|done].
  destruct Hor as [Hkey| ->]; [|by rewrite andb_false_r in Ht].
  apply Array_sort_id. intros a b. unfold compareFn.
  by rewrite !get_unknown_key.
Qed.

(** X4. Every direction other than ["asc"] (and the empty one) sorts as
    ["desc"] does. *)
Theorem sortProducts_not_asc (column direction : string)
    (records : list Product) :
  direction ≠ "asc" → direction ≠ "" →
  sortProducts column direction records
  = sortProducts column "desc" records.
Proof.
  intros Hasc Hd%truthy_nonempty. rewrite !sortProducts_unfold, Hd. simpl.
  destruct (truthy column); [|done]. simpl.
  apply Array_sort_ext. intros a b. unfold compareFn, compareVal.
  apply String.eqb_neq in Hasc. by rewrite Hasc.
Qed.

(** X5. Searching and sorting can be done in either order. *)
Theorem filter_sort_commute (q column direction : string)
    (records : list Product) :
  filterProducts q (sortProducts column direction records)
  = sortProducts column direction (filterProducts q records).
Proof.
  rewrite !sortProducts_unfold. unfold filterProducts.
  destruct (negb (truthy q)); [done|].
  destruct (_ && _); [|done].
  apply Array_sort_filter, compareFn_consistent.
Qed.

(** Descending order is ascending order read backwards, when no two keys
    compare equal. *)
Lemma sortProducts_desc_reverse column records :
  no_duplicate_keys column records →
  sortProducts column "desc" records
  = reverse (sortProducts column "asc" records).
Proof.
  intros Hnd. rewrite !sortProducts_unfold. simpl. rewrite !andb_true_r.
  destruct (truthy column) eqn:Hc.
  - apply (StronglySorted_unique_strong
             (not_after (compareFn column "desc"))).
    + intros x1 x2 Hx1 Hx2 H12 H21.
      rewrite Array_sort_perm in Hx1.
      rewrite elem_of_reverse, Array_sort_perm in Hx2.
      unfold not_after in *.
      pose proof (cmp_swap _ (compareFn_consistent column "desc") x1 x2).
      symmetry. apply (no_duplicate_keys_inj column records); try done.
      rewrite <- compareFn_desc. lia.
    + apply Array_sort_sorted, compareFn_consistent.
    + eapply StronglySorted_weaken;
        [|apply StronglySorted_reverse, Array_sort_sorted,
           (compareFn_consistent column "asc")].
      intros a b. unfold flip, not_after. by rewrite compareFn_desc.
    + by rewrite reverse_Permutation, !Array_sort_perm.
  - destruct column; [|done].
    destruct records as [|a [|b records]]; [done..|].
    by destruct (Hnd 0%nat 1%nat a b).
Qed.
End MoreSortProperties.

(** ** More on the search filter *)

Lemma append_empty_r s : s +:+ EmptyString = s.
Proof. induction s as [|a s IH]; [done|]. by rewrite append_cons, IH. Qed.

Lemma occurs_in_refl s : occurs_in s s.
Proof. exists EmptyString, EmptyString. by rewrite append_empty_r. Qed.

Lemma Array_filter_comm {A} (f g : A → bool) xs :
  Array_filter f (Array_filter g xs) = Array_filter g (Array_filter f xs).
Proof.
  induction xs as [|x xs IH]; [done|]. simpl.
  destruct (f x) eqn:Hf, (g x) eqn:Hg; simpl; rewrite ?Hf, ?Hg;
    by rewrite ?IH.
Qed.

Lemma Array_filter_idemp {A} (f : A → bool) xs :
  Array_filter f (Array_filter f xs) = Array_filter f xs.
Proof.
  induction xs as [|x xs IH]; [done|]. simpl.
  destruct (f x) eqn:Hf; simpl; rewrite ?Hf; by rewrite ?IH.
Qed.

Section MoreFilterProperties.
Context `{Host}.

(** X6. Filtering what was filtered by the same query changes nothing,
    and two queries narrow the list to the same rows in either order. *)
Theorem filter_twice (q q' : string) (records : list Product) :
  filterProducts q (filterProducts q records) = filterProducts q records
  ∧ filterProducts q (filterProducts q' records)
    = filterProducts q' (filterProducts q records).
Proof.
  unfold filterProducts.
  destruct (negb (truthy q)), (negb (truthy q')); try done;
    split; try done; auto using Array_filter_idemp, Array_filter_comm.
Qed.

(** X7. The text of any field of a record, typed as the query, finds the
    record: its title, its description, and also its id, its price or
    its thumbnail address as [String] prints them. *)
Theorem field_text_finds_record (records : list Product) (p : Product)
    (val : JsVal) :
  p ∈ records → val ∈ Object_values p → String_ val ≠ "" →
  p ∈ filterProducts (String_ val) records.
Proof.
  intros Hp Hval Hq%truthy_nonempty. unfold filterProducts. rewrite Hq.
  simpl. apply Array_filter_elem. split; [done|].
  apply matches_field_contains. exists val. split; [done|].
  apply occurs_in_refl.
Qed.
End MoreFilterProperties.

(** ** More on the pagination slicer *)

Section MorePaginateProperties.

(** X8. Whatever the page index, negative ones included, a page is a
    run of consecutive rows of the list and has at most [pageSize] of
    them. *)
Theorem page_is_short_run (records : list Product) (page : Z) :
  (length (paginateProducts page records) ≤ Z.to_nat pageSize)%nat
  ∧ ∃ before after,
      records = before ++ paginateProducts page records ++ after.
Proof.
  unfold paginateProducts, Array_slice, rel_index, pageSize.
  set (k := Z.to_nat _). set (m := Z.to_nat _).
  split.
  - rewrite length_take. etrans; [apply Nat.le_min_l|]. subst k.
    destruct (Z.ltb_spec ((page - 1) * 10) 0),
      (Z.ltb_spec ((page - 1) * 10 + 10) 0); lia.
  - exists (take m records), (drop k (drop m records)).
    by rewrite take_drop, take_drop.
Qed.

(** X9. The pages the control offers, 1 to [ceil(n / pageSize)], all show
    rows; page 0 and the pages past the last show none. *)
Theorem offered_pages_show_rows (records : list Product) (page : Z) :
  let n := Z.of_nat (length records) in
  let last := (n + pageSize - 1) / pageSize in
  (1 ≤ page ≤ last → paginateProducts page records ≠ [])
  ∧ (page = 0 ∨ last < page → paginateProducts page records = []).
Proof.
  intros n last. subst n last. unfold pageSize.
  remember (Z.of_nat (length records)) as n eqn:Hn.
  assert (Hdiv : 10 * ((n + 10 - 1) / 10) - 9 ≤ n ≤ 10 * ((n + 10 - 1) / 10)).
  { pose proof (Z.div_mod (n + 10 - 1) 10 ltac:(lia)).
    pose proof (Z.mod_pos_bound (n + 10 - 1) 10 ltac:(lia)). lia. }
  remember ((n + 10 - 1) / 10) as last eqn:Hlast. clear Hlast. split.
  - intros Hpage. rewrite paginateProducts_take_drop by lia.
    intros Hnil%(f_equal length).
    rewrite length_take, length_drop in Hnil. unfold pageSize in Hnil.
    cbn [length] in Hnil. lia.
  - intros [->|Hpast].
    + unfold paginateProducts, Array_slice, rel_index, pageSize. simpl.
      replace (Z.to_nat _) with 0%nat by lia. done.
    + rewrite paginateProducts_take_drop by lia.
      rewrite drop_ge; [done|]. unfold pageSize. lia.
Qed.

(** X10. A negative page index counts tens from the end of the list: page
    [-k] is the run of ten rows that stops [10 * k] rows before the end,
    cut at the start of the list. *)
Theorem negative_page_from_end (records : list Product) (k : nat) :
  (1 ≤ k)%nat →
  paginateProducts (- Z.of_nat k) records
  = drop (length records - 10 * k - 10)
      (take (length records - 10 * k) records).
Proof.
  intros Hk. unfold paginateProducts, Array_slice, rel_index, pageSize.
  set (n := length records).
  destruct (Z.ltb_spec ((- Z.of_nat k - 1) * 10) 0); [|lia].
  destruct (Z.ltb_spec ((- Z.of_nat k - 1) * 10 + 10) 0); [|lia].
  rewrite take_drop_commute. unfold n. f_equal; [lia|]. f_equal. lia.
Qed.
End MorePaginateProperties.

(** ** More on the page fetcher *)

Lemma State_eta st :
  mkState (heap st) (products st) (loading st) (search st) (page st)
    (sort st) (filtered st) (requests st) = st.
Proof. by destruct st. Qed.

(** The loop sends the page requests in the order of the offsets and
    stops somewhere along them. *)
Lemma fetchPages_requests_prefix srv total result skip st :
  ∃ k, requests (fetchPages srv total result skip st).2
       = requests st ++ (page_request <$> take k (offsets_from skip total)).
Proof.
  funelim (fetchPages srv total result skip st).
  - rewrite offsets_from_step by done. unfold fetch.
    destruct (srv (page_request skip0)) as [|res] eqn:Hsrv; simpl.
    + by exists 1%nat.
    + destruct (H (Normal res) (with_request (page_request skip0) st) res)
        as [k Hk].
      exists (S k). rewrite Hk.
      destruct res as [[t [ps|]]|]; simpl; by rewrite <- app_assoc.
  - exists 0%nat. simpl. by rewrite app_nil_r.
Qed.

(** The loop stops at the first page request that is rejected. *)
Lemma fetchPages_stops srv total result skip st pre s post :
  offsets_from skip total = pre ++ s :: post →
  (∀ x, x ∈ pre → srv (page_request x) ≠ Rejected) →
  srv (page_request s) = Rejected →
  requests (fetchPages srv total result skip st).2
  = requests st ++ (page_request <$> pre ++ [s]).
Proof.
  revert skip st. induction pre as [|x pre IH]; intros skip st Hoff Hpre Hs.
  - destruct (decide (skip < total)) as [Hlt|Hge];
      [|by rewrite offsets_from_done in Hoff].
    rewrite offsets_from_step in Hoff by done. injection Hoff as -> _.
    rewrite fetchPages_step. destruct (decide _); [|done].
    unfold fetch. by rewrite Hs.
  - destruct (decide (skip < total)) as [Hlt|Hge];
      [|by rewrite offsets_from_done in Hoff].
    rewrite offsets_from_step in Hoff by done. injection Hoff as -> Hoff.
    rewrite fetchPages_step. destruct (decide _); [|done].
    unfold fetch.
    pose proof (Hpre x ltac:(left)) as Hhead.
    destruct (srv (page_request x)) as [|res]; [done|].
    rewrite (IH _ _ Hoff); [|intros y Hy; apply Hpre; by right|done].
    destruct res as [[t [ps|]]|]; simpl; by rewrite <- app_assoc.
Qed.

Lemma offsets_seq total :
  offsets total
  = (λ i, 30 * Z.of_nat i)
      <$> seq 0 (Z.to_nat ((total + fetchLimit - 1) / fetchLimit)).
Proof.
  unfold offsets, seqZ. rewrite <- list_fmap_compose.
  apply list_fmap_ext. intros _ i _. simpl. unfold fetchLimit. lia.
Qed.

Section MoreMounting.
Context `{Host}.

(** X11. Whatever the server answers, the callback completes without an
    exception, the loading flag is down afterwards, and what was sent
    is the probe followed by page requests of 30 at 0, 30, 60, ..., some
    number of them, in this order. *)
Theorem onMounted_always_settles (srv : Request → FetchResult)
    (st : State) :
  (onMounted srv st).1 = Normal ()
  ∧ loading (onMounted srv st).2 = false
  ∧ ∃ k : nat,
      requests (onMounted srv st).2
      = requests st
        ++ probe :: ((λ i, page_request (30 * Z.of_nat i)) <$> seq 0 k).
Proof.
  destruct (onMounted_completes srv st) as [Hc Hl].
  split_and!; [done..|].
  destruct (srv probe) as [|[body|]] eqn:Hprobe.
  - rewrite onMounted_probe_failed by auto. by exists 0%nat.
  - rewrite (onMounted_probed srv st body Hprobe). cbv zeta.
    set (T := or_default _ _). set (st1 := with_heap _ _).
    destruct (fetchPages_requests_prefix srv T (length (heap st)) 0 st1)
      as [k Hk].
    rewrite <- offsets_from_0, offsets_seq in Hk.
    rewrite <- fmap_take, take_seq, <- list_fmap_compose in Hk.
    eexists.
    destruct (fetchPages srv T (length (heap st)) 0 st1) as [[[]|e] st2];
      simpl in *.
    + destruct (flush_frame st2 (with_products (length (heap st)) st2))
        as (_ & -> & _). simpl. rewrite Hk. subst st1. simpl.
      by rewrite <- app_assoc.
    + rewrite Hk. subst st1. simpl. by rewrite <- app_assoc.
  - rewrite onMounted_probe_failed by auto. by exists 0%nat.
Qed.

(** X12. Nothing is retried and nothing is sent after a failure: when the
    page request at offset [s] is the first one rejected, the requests
    are the probe and the page requests up to that one. *)
Theorem no_request_after_failure (srv : Request → FetchResult)
    (st : State) (body : Res.t) (pre post : list Z) (s : Z) :
  srv probe = Resolved (Some body) →
  offsets (or_default (Res.total body) 100) = pre ++ s :: post →
  (∀ x, x ∈ pre → srv (page_request x) ≠ Rejected) →
  srv (page_request s) = Rejected →
  requests (onMounted srv st).2
  = requests st ++ probe :: (page_request <$> pre ++ [s]).
Proof.
  intros Hprobe Hoff Hpre Hs.
  rewrite (onMounted_probed srv st body Hprobe). cbv zeta.
  set (T := or_default _ _) in *. set (st1 := with_heap _ _).
  rewrite offsets_from_0 in Hoff.
  pose proof (fetchPages_stops srv T (length (heap st)) 0 st1 pre s post
                Hoff Hpre Hs) as Hreq.
  pose proof (fetchPages_rejected srv T (length (heap st)) 0 st1 s) as Hthrow.
  rewrite Hoff in Hthrow.
  specialize (Hthrow ltac:(apply elem_of_app; right; left) Hs).
  destruct (fetchPages srv T (length (heap st)) 0 st1) as [c st2].
  simpl in *. subst c. simpl. rewrite Hreq. subst st1. simpl.
  by rewrite <- app_assoc.
Qed.

(** X13. Against a server that holds the records [db], reports their
    number and serves the thirty records from each offset on, the
    collection after the load is [db], the empty catalogue included. *)
Theorem fetch_rebuilds_catalogue (srv : Request → FetchResult)
    (st : State) (db : list Product) (body : Res.t) :
  srv probe = Resolved (Some body) →
  Res.total body = Some (Z.of_nat (length db)) →
  (∀ s, 0 ≤ s →
     ∃ t, srv (page_request s)
          = Resolved (Some (Res.mk t
                              (Some (take 30 (drop (Z.to_nat s) db)))))) →
  arr (heap (onMounted srv st).2) (products (onMounted srv st).2) = db.
Proof.
  intros Hprobe Htotal Hpages.
  pose proof (onMounted_resolved srv st body Hprobe) as Hrun.
  set (T := or_default (Res.total body) 100) in *.
  assert (Hin : ∀ s, s ∈ offsets T → 0 ≤ s).
  { intros s. rewrite offsets_seq.
    intros (i & -> & _)%list_elem_of_fmap. lia. }
  cbv zeta in Hrun.
  destruct (onMounted srv st) as [c st']. simpl.
  destruct Hrun as (_ & _ & -> & _).
  { intros s Hs. destruct (Hpages s (Hin s Hs)) as [t ->]. done. }
  rewrite offsets_seq.
  rewrite <- list_fmap_compose.
  etrans; [|apply (concat_chunks 30
                     (Z.to_nat ((T + fetchLimit - 1) / fetchLimit)) db)].
  - f_equal. apply list_fmap_ext. intros _ i _. simpl.
    destruct (Hpages (30 * Z.of_nat i) ltac:(lia)) as [t ->]. simpl.
    do 2 f_equal. lia.
  - subst T. rewrite Htotal. unfold or_default, fetchLimit.
    destruct (Z.eqb_spec (Z.of_nat (length db)) 0) as [Hz|Hz]; [lia|].
    pose proof (Z.div_mod (Z.of_nat (length db) + 30 - 1) 30 ltac:(lia)).
    pose proof (Z.mod_pos_bound (Z.of_nat (length db) + 30 - 1) 30
                  ltac:(lia)).
    lia.
Qed.

(** X14. A load that succeeds puts the page index back to 1, whatever it
    was, and the filtered view is then the filter of the new
    collection. *)
Theorem load_resets_page (srv : Request → FetchResult) (st : State)
    (body : Res.t) :
  wf st → srv probe = Resolved (Some body) →
  (∀ s, s ∈ offsets (or_default (Res.total body) 100) →
        srv (page_request s) ≠ Rejected) →
  let st' := (onMounted srv st).2 in
  page st' = 1
  ∧ arr (heap st') (filtered st')
    = filterProducts (search st') (arr (heap st') (products st')).
Proof.
  intros Hwf Hprobe Hok st'. split; [|apply wf_onMounted, Hwf].
  subst st'. rewrite (onMounted_probed srv st body Hprobe). cbv zeta.
  set (T := or_default _ _) in *. set (st1 := with_heap _ _).
  set (result := length (heap st)).
  pose proof (fetchPages_resolved srv T result 0 st1) as Hloop.
  pose proof (fetchPages_frame srv T result 0 st1) as (Hview & Hlen & _).
  destruct (fetchPages srv T result 0 st1) as [c st2].
  rewrite <- offsets_from_0 in Hloop.
  destruct Hloop as (-> & _).
  { subst st1 result. simpl. rewrite length_app. simpl. lia. }
  { done. }
  simpl in Hview, Hlen. injection Hview as Hp _ Hq _ Hs Hf.
  destruct Hwf as [[ps Hps%lookup_lt_Some] [fs Hfs%lookup_lt_Some] _ _ _ _].
  simpl. unfold flush. simpl.
  rewrite (hasChanged_true result) by (rewrite Hp; subst result; simpl; lia).
  simpl. unfold watch_job, recompute, filteredProducts, heap_filter, alloc.
  simpl. destruct (negb (truthy (search st2))); simpl.
  - rewrite (hasChanged_true result)
      by (rewrite Hf; subst result; simpl; lia). done.
  - rewrite hasChanged_true; [done|].
    rewrite Hf, Hlen. subst st1. simpl. rewrite length_app. simpl. lia.
Qed.
End MoreMounting.

(** ** More on the component's states *)

Section MoreWatching.
Context `{Host}.

Lemma reachable_is_wf st : reachable st → wf st.
Proof.
  induction 1; auto using wf_initial, wf_dispatch, wf_onMounted.
Qed.

(** A user input leaves the objects it does not write as they are. *)
Lemma dispatch_keeps_products ev st :
  wf st →
  products (dispatch ev st) = products st
  ∧ arr (heap (dispatch ev st)) (products st)
    = arr (heap st) (products st).
Proof.
  intros [[ps Hps] _ (c & d & Hcd) _ _ _].
  assert (Hne : sort st ≠ products st) by congruence.
  assert (Hwrite : ∀ c' d',
    arr (<[sort st := Obj c' d']> (heap st)) (products st)
    = arr (heap st) (products st)).
  { intros c' d'. apply arr_ext. by rewrite list_lookup_insert_ne. }
  destruct ev as [q|col| |p]; unfold dispatch, handle.
  - destruct (flush_frame st (with_search q st)) as (Hp & _ & _ & Hh).
    split; [by rewrite Hp|]. apply arr_ext. apply Hh. simpl.
    by eapply lookup_lt_Some.
  - unfold selectColumn. destruct (obj _ _) as [c0 d0].
    rewrite flush_heap_only. simpl. auto.
  - unfold toggleSortDirection. destruct (obj _ _) as [c0 d0].
    rewrite flush_heap_only. simpl. auto.
  - destruct (flush_frame st (with_page p st)) as (Hp & _ & _ & Hh).
    split; [by rewrite Hp|]. apply arr_ext. apply Hh. simpl.
    by eapply lookup_lt_Some.
Qed.

(** X15. In every state the component reaches, the filtered view that the
    table reads is the filter of the current collection by the current
    query, and it is the array of the collection itself exactly when the
    query is empty. *)
Theorem filtered_view_is_current (st : State) :
  reachable st →
  arr (heap st) (filtered st)
  = filterProducts (search st) (arr (heap st) (products st))
  ∧ (filtered st = products st ↔ search st = "").
Proof.
  intros [_ _ _ Hsame Hfresh Hc]%reachable_is_wf. split; [done|].
  split; [|done]. intros Heq.
  destruct (decide (search st = "")); [done|]. by destruct Hfresh.
Qed.

(** X16. A user input never touches the collection: [products.value] is
    the same array with the same records, no request is sent, and the
    loading flag keeps its value. *)
Theorem input_leaves_collection (ev : Event) (st : State) :
  reachable st →
  products (dispatch ev st) = products st
  ∧ arr (heap (dispatch ev st)) (products (dispatch ev st))
    = arr (heap st) (products st)
  ∧ requests (dispatch ev st) = requests st
  ∧ loading (dispatch ev st) = loading st.
Proof.
  intros Hwf%reachable_is_wf.
  destruct (dispatch_keeps_products ev st Hwf) as [Hp Harr].
  rewrite Hp. split_and!; try done.
  - destruct ev as [q|col| |p]; unfold dispatch, handle.
    + by destruct (flush_frame st (with_search q st)) as (_ & -> & _).
    + unfold selectColumn. destruct (obj _ _). by rewrite flush_heap_only.
    + unfold toggleSortDirection. destruct (obj _ _).
      by rewrite flush_heap_only.
    + by destruct (flush_frame st (with_page p st)) as (_ & -> & _).
  - destruct ev as [q|col| |p]; unfold dispatch, handle.
    + by destruct (flush_frame st (with_search q st)) as (_ & _ & -> & _).
    + unfold selectColumn. destruct (obj _ _). by rewrite flush_heap_only.
    + unfold toggleSortDirection. destruct (obj _ _).
      by rewrite flush_heap_only.
    + by destruct (flush_frame st (with_page p st)) as (_ & _ & -> & _).
Qed.

(** X17. In every state the component reaches, typing a query that differs
    from the current one puts the page index back to 1 and makes the
    filtered view the filter of the collection by the new query. *)
Theorem new_query_resets_page (st : State) (q : string) :
  reachable st → q ≠ search st →
  let st' := dispatch (InputSearch q) st in
  page st' = 1
  ∧ arr (heap st') (filtered st')
    = filterProducts q (arr (heap st) (products st)).
Proof.
  intros Hr Hq st'. pose proof (reachable_is_wf st Hr) as Hwf.
  split; [by apply search_resets_page|].
  destruct (dispatch_keeps_products (InputSearch q) st Hwf) as [Hp Harr].
  pose proof (wf_dispatch (InputSearch q) st Hwf) as [_ _ _ _ _ Hc].
  fold st' in Hp, Harr, Hc. rewrite Hc, Hp, Harr. f_equal.
  subst st'. unfold dispatch, handle, flush, watch_job. simpl.
  rewrite hasChanged_same. apply String.eqb_neq in Hq. rewrite Hq. simpl.
  unfold recompute. destruct (filteredProducts _) as [f h].
  by destruct (_ || _).
Qed.

Lemma toggle_run st column direction :
  heap st !! sort st = Some (Obj column direction) →
  dispatch ClickToggle st
  = with_heap
      (<[sort st := Obj column (if String.eqb direction "asc" then "desc"
                                else "asc")]> (heap st)) st.
Proof.
  intros Hcell. unfold dispatch, handle, toggleSortDirection, obj.
  rewrite Hcell. by rewrite flush_heap_only.
Qed.

(** X18. A click on the direction button writes the other direction into
    the sort object and nothing else; from ["asc"] or ["desc"], a second
    click gives back the state before the first. *)
Theorem toggle_twice (st : State) (column direction : string) :
  heap st !! sort st = Some (Obj column direction) →
  obj (heap (dispatch ClickToggle st)) (sort st)
  = (column, if String.eqb direction "asc" then "desc" else "asc")
  ∧ (direction = "asc" ∨ direction = "desc" →
     dispatch ClickToggle (dispatch ClickToggle st) = st).
Proof.
  intros Hcell. pose proof (lookup_lt_Some _ _ _ Hcell) as Hlt.
  rewrite (toggle_run st column direction Hcell). split.
  - unfold obj. simpl. by rewrite list_lookup_insert_eq.
  - intros Hdir.
    erewrite toggle_run; [|simpl; by apply list_lookup_insert_eq].
    unfold with_heap. simpl. rewrite list_insert_insert_eq.
    replace (if String.eqb (if String.eqb direction "asc" then "desc"
                            else "asc") "asc" then "desc" else "asc")
      with direction by (by destruct Hdir as [-> | ->]).
    rewrite list_insert_id by done. apply State_eta.
Qed.

(** X19. When no two rows of the filtered view have keys that compare
    equal, a click on the direction button in ascending order shows the
    sorted rows in the reverse order. *)
Theorem toggle_reverses_rows (st : State) (column : string) :
  heap st !! sort st = Some (Obj column "asc") →
  no_duplicate_keys column (arr (heap st) (filtered st)) →
  sortedRows (dispatch ClickToggle st) = reverse (sortedRows st).
Proof.
  intros Hcell Hnd. pose proof (lookup_lt_Some _ _ _ Hcell) as Hlt.
  rewrite (toggle_run st column "asc" Hcell). simpl.
  unfold sortedRows.
  destruct (sortedFilteredProducts_contents st) as [_ ->].
  destruct (sortedFilteredProducts_contents
              (with_heap (<[sort st := Obj column "desc"]> (heap st)) st))
    as [_ ->].
  simpl. unfold obj. rewrite Hcell, list_lookup_insert_eq by done. simpl.
  assert (Harr : arr (<[sort st := Obj column "desc"]> (heap st)) (filtered st)
                 = arr (heap st) (filtered st)).
  { destruct (decide (filtered st = sort st)) as [Heq|Hne].
    - unfold arr. rewrite Heq, Hcell.
      by rewrite list_lookup_insert_eq by done.
    - apply arr_ext. by rewrite list_lookup_insert_ne. }
  rewrite Harr. by apply sortProducts_desc_reverse.
Qed.

(** X20. The total handed to the pagination control is the number of
    records that match the query, which is at most the size of the
    collection. *)
Theorem pagination_total_counts_matches (st : State) :
  reachable st →
  paginationTotal st
  = Z.of_nat (length (filterProducts (search st)
                        (arr (heap st) (products st))))
  ∧ paginationTotal st ≤ Z.of_nat (length (arr (heap st) (products st))).
Proof.
  intros [_ _ _ _ _ Hc]%reachable_is_wf.
  assert (Htotal : paginationTotal st
    = Z.of_nat (length (filterProducts (search st)
                          (arr (heap st) (products st))))).
  { unfold paginationTotal, sortedRows.
    destruct (sortedFilteredProducts_contents st) as [_ ->].
    by rewrite sortProducts_perm, Hc. }
  split; [done|]. rewrite Htotal. apply inj_le. unfold filterProducts.
  destruct (negb _); [done|]. apply sublist_length, Array_filter_sublist.
Qed.
End MoreWatching.

(** ** The further properties on the sample data *)

Section MoreExamples.
#[local] Existing Instance ascii_host.

Lemma sortProducts_in_order_witness :
  "price" ≠ "" ∧ "asc" ≠ "" ∧ (0 < 2)%nat
  ∧ sortProducts "price" "asc" catalogue !! 0%nat = Some lamp
  ∧ sortProducts "price" "asc" catalogue !! 2%nat = Some laptop
  ∧ compareFn "price" "asc" lamp laptop ≤ 0.
Proof.
  split_and!; [done | done | lia | reflexivity | reflexivity |].
  apply (sortProducts_in_order "price" "asc" catalogue 0 2 lamp laptop);
    [done | done | lia | reflexivity | reflexivity].
Defined.

Lemma weight_is_no_key : "weight" ∉ product_keys.
Proof.
  unfold product_keys. intros Hin.
  repeat (apply elem_of_cons in Hin as [Hin|Hin]; [discriminate|]).
  by apply elem_of_nil in Hin.
Defined.

Lemma sortProducts_no_key_witness :
  ("weight" ∉ product_keys ∨ "asc" = "")
  ∧ sortProducts "weight" "asc" catalogue = catalogue.
Proof.
  split; [left; exact weight_is_no_key|].
  apply (sortProducts_no_key "weight" "asc" catalogue).
  left. exact weight_is_no_key.
Defined.

Lemma sortProducts_not_asc_witness :
  "down" ≠ "asc" ∧ "down" ≠ ""
  ∧ sortProducts "price" "down" catalogue
    = sortProducts "price" "desc" catalogue.
Proof.
  split_and!; [done | done |].
  apply (sortProducts_not_asc "price" "down" catalogue); done.
Defined.

Lemma field_text_finds_record_witness :
  laptop ∈ catalogue ∧ VNum 1499 ∈ Object_values laptop
  ∧ String_ (VNum 1499) ≠ ""
  ∧ laptop ∈ filterProducts (String_ (VNum 1499)) catalogue.
Proof.
  assert (Hin : laptop ∈ catalogue) by (unfold catalogue; repeat constructor).
  assert (Hval : VNum 1499 ∈ Object_values laptop)
    by (unfold Object_values; simpl; repeat constructor).
  assert (Hne : String_ (VNum 1499) ≠ "") by (vm_compute; discriminate).
  split_and!; [done..|].
  exact (field_text_finds_record catalogue laptop (VNum 1499) Hin Hval Hne).
Defined.

Lemma negative_page_from_end_witness :
  (1 ≤ 1)%nat
  ∧ paginateProducts (- Z.of_nat 1) warehouse
    = drop (length warehouse - 10 * 1 - 10)
        (take (length warehouse - 10 * 1) warehouse).
Proof.
  split; [lia|]. apply (negative_page_from_end warehouse 1). lia.
Defined.

Example page_minus_one_of_warehouse :
  id <$> paginateProducts (-1) warehouse = seqZ 26 10.
Proof. reflexivity. Qed.

Lemma no_request_after_failure_witness :
  requests (onMounted flaky_server initial).2
  = requests initial ++ probe :: (page_request <$> [0] ++ [30]).
Proof.
  apply (no_request_after_failure flaky_server initial
           (Res.mk (Some 45) (Some [phone])) [0] [] 30);
    [reflexivity | reflexivity | | reflexivity].
  intros x ->%list_elem_of_singleton. vm_compute. discriminate.
Defined.

Lemma fetch_rebuilds_catalogue_witness :
  arr (heap (onMounted (catalogue_server warehouse) initial).2)
    (products (onMounted (catalogue_server warehouse) initial).2)
  = warehouse.
Proof.
  apply (fetch_rebuilds_catalogue (catalogue_server warehouse) initial
           warehouse (Res.mk (Some 45) (Some (take 1 warehouse))));
    [reflexivity | reflexivity |].
  intros s Hs. eexists. reflexivity.
Defined.

Lemma browsing_wf : wf browsing.
Proof. split; simpl; eauto; done. Defined.

Lemma load_resets_page_witness :
  page browsing = 2
  ∧ let st' := (onMounted small_server browsing).2 in
    page st' = 1
    ∧ arr (heap st') (filtered st')
      = filterProducts (search st') (arr (heap st') (products st')).
Proof.
  split; [reflexivity|].
  apply (load_resets_page small_server browsing
           (Res.mk (Some 45) (Some [phone])) browsing_wf); [reflexivity|].
  intros s _. unfold small_server. simpl. by destruct (s =? 0).
Defined.

(** A state the component reaches: the catalogue is loaded, then a query
    is typed and page 3 is chosen. *)
Lemma searching_reachable :
  reachable
    (dispatch (SelectPage 3)
       (dispatch (InputSearch "crate")
          (onMounted (catalogue_server warehouse) initial).2)).
Proof. do 2 apply reach_input. apply reach_mounted, reach_initial. Defined.

Lemma filtered_view_is_current_witness :
  let st := dispatch (SelectPage 3)
              (dispatch (InputSearch "crate")
                 (onMounted (catalogue_server warehouse) initial).2) in
  arr (heap st) (filtered st)
  = filterProducts (search st) (arr (heap st) (products st))
  ∧ (filtered st = products st ↔ search st = "").
Proof. exact (filtered_view_is_current _ searching_reachable). Defined.

Lemma input_leaves_collection_witness :
  let st := dispatch (SelectPage 3)
              (dispatch (InputSearch "crate")
                 (onMounted (catalogue_server warehouse) initial).2) in
  products (dispatch ClickToggle st) = products st
  ∧ arr (heap (dispatch ClickToggle st)) (products (dispatch ClickToggle st))
    = arr (heap st) (products st)
  ∧ requests (dispatch ClickToggle st) = requests st
  ∧ loading (dispatch ClickToggle st) = loading st.
Proof.
  exact (input_leaves_collection ClickToggle _ searching_reachable).
Defined.

Lemma new_query_resets_page_witness :
  let st := dispatch (SelectPage 3)
              (dispatch (InputSearch "crate")
                 (onMounted (catalogue_server warehouse) initial).2) in
  page st = 3
  ∧ "acme" ≠ search st
  ∧ page (dispatch (InputSearch "acme") st) = 1
  ∧ arr (heap (dispatch (InputSearch "acme") st))
      (filtered (dispatch (InputSearch "acme") st))
    = filterProducts "acme" (arr (heap st) (products st)).
Proof.
  split; [reflexivity|]. split; [vm_compute; discriminate|].
  apply (new_query_resets_page _ "acme" searching_reachable).
  vm_compute. discriminate.
Defined.

Lemma toggle_twice_witness :
  heap browsing !! sort browsing = Some (Obj "price" "asc")
  ∧ obj (heap (dispatch ClickToggle browsing)) (sort browsing)
    = ("price", if String.eqb "asc" "asc" then "desc" else "asc")
  ∧ ("asc" = "asc" ∨ "asc" = "desc" →
     dispatch ClickToggle (dispatch ClickToggle browsing) = browsing).
Proof.
  split; [reflexivity|].
  apply (toggle_twice browsing "price" "asc"). reflexivity.
Defined.

Lemma shelf_prices_differ : no_duplicate_keys "price" shelf.
Proof.
  apply NoDup_no_duplicate_keys.
  - intros a b. apply numeric_keys_separated. intros p. by eexists.
  - apply (bool_decide_unpack _). by vm_compute.
Defined.

Lemma toggle_reverses_rows_witness :
  heap browsing !! sort browsing = Some (Obj "price" "asc")
  ∧ no_duplicate_keys "price" (arr (heap browsing) (filtered browsing))
  ∧ sortedRows (dispatch ClickToggle browsing)
    = reverse (sortedRows browsing).
Proof.
  split; [reflexivity|]. split; [exact shelf_prices_differ|].
  apply (toggle_reverses_rows browsing "price");
    [reflexivity | exact shelf_prices_differ].
Defined.

Lemma pagination_total_counts_matches_witness :
  let st := dispatch (SelectPage 3)
              (dispatch (InputSearch "crate")
                 (onMounted (catalogue_server warehouse) initial).2) in
  paginationTotal st
  = Z.of_nat (length (filterProducts (search st)
                        (arr (heap st) (products st))))
  ∧ paginationTotal st ≤ Z.of_nat (length (arr (heap st) (products st))).
Proof.
  exact (pagination_total_counts_matches _ searching_reachable).
Defined.

Example total_after_search :
  paginationTotal
    (dispatch (InputSearch "crate")
       (onMounted (catalogue_server warehouse) initial).2) = 45
  ∧ paginationTotal
      (dispatch (InputSearch "45")
         (onMounted (catalogue_server warehouse) initial).2) = 2.
Proof. split; reflexivity. Qed.
End MoreExamples.
